(** * pgoapi utilities: the hash-composition pipeline

    A shallow embedding of [pogom/pgoapi/utilities.py]: the float encoder
    [d2h], the salted wrappers around the native hash ([hash64salt32],
    [hash64salt64], [hash32], [calcHash]), the location and request hashes
    and [long_to_bytes].

    Python integers are [Z]; byte strings are lists of integers in
    [0, 256); text strings are lists of characters.  A call that can raise
    returns a [result].  The native library is an interface ([Native]); every
    call made to it is appended to a call log, so that the buffers handed
    over to it can be observed. *)

From Stdlib Require Import ZArith Ascii String List Bool Lia.
From Stdlib Require Import Eqdep_dec Sorting.Sorted Sorting.Permutation.
Import ListNotations.
Local Open Scope Z_scope.

(** ** Values and exceptions *)

Definition byte := Z.
Definition bytes := list byte.
Definition str := list ascii.

(** A string literal. *)
Definition lit (s : string) : str := list_ascii_of_string s.

Inductive exn : Type :=
| struct_error
| Odd_length_string
| Non_hexadecimal_digit.

Inductive result (A : Type) : Type :=
| Ok (a : A)
| Raise (e : exn).
Arguments Ok {A} a.
Arguments Raise {A} e.

Definition rbind {A B} (r : result A) (k : A -> result B) : result B :=
  match r with
  | Ok a => k a
  | Raise e => Raise e
  end.

Notation "x <~ r ;; k" := (rbind r (fun x => k))
  (at level 61, r at next level, right associativity).

(** ** A double-precision value

    [struct.pack('<d', x)] exposes exactly the 64 bits of the IEEE-754
    binary64 representation of [x]; nothing else about a float is used by
    this module.  A [float64] is therefore its 64-bit pattern. *)

Definition in_u64 (v : Z) : bool := (0 <=? v) && (v <? 2 ^ 64).

Record float64 : Type := mkFloat64 {
  raw_bits : Z;
  raw_bits_range : in_u64 raw_bits = true
}.

Definition sign_bit (x : float64) : bool := Z.testbit (raw_bits x) 63.
Definition biased_exponent (x : float64) : Z := (raw_bits x / 2 ^ 52) mod 2 ^ 11.
Definition fraction (x : float64) : Z := raw_bits x mod 2 ^ 52.

Definition float_of_bits (v : Z) (H : in_u64 v = true) : float64 := mkFloat64 v H.

(** 0.0, -0.0, 1.0, -1.0, 5.0 and the smallest positive subnormal. *)
Definition f_zero : float64 := float_of_bits 0 eq_refl.
Definition f_neg_zero : float64 := float_of_bits 0x8000000000000000 eq_refl.
Definition f_one : float64 := float_of_bits 0x3FF0000000000000 eq_refl.
Definition f_neg_one : float64 := float_of_bits 0xBFF0000000000000 eq_refl.
Definition f_two : float64 := float_of_bits 0x4000000000000000 eq_refl.
Definition f_five : float64 := float_of_bits 0x4014000000000000 eq_refl.
Definition f_min_subnormal : float64 := float_of_bits 1 eq_refl.
(** 2^-1008: biased exponent 15, so the top byte of the pattern is zero. *)
Definition f_tiny : float64 := float_of_bits 0x00F0000000000000 eq_refl.

(** ** [struct] *)

Fixpoint le_bytes (n : nat) (v : Z) : bytes :=
  match n with
  | O => []
  | S k => v mod 256 :: le_bytes k (v / 256)
  end.

Fixpoint le_value (b : bytes) : Z :=
  match b with
  | [] => 0
  | x :: r => x + 256 * le_value r
  end.

(** Most significant byte first. *)
Fixpoint be_bytes (n : nat) (v : Z) : bytes :=
  match n with
  | O => []
  | S k => (v / 256 ^ Z.of_nat k) mod 256 :: be_bytes k v
  end.

Fixpoint be_value (acc : Z) (b : bytes) : Z :=
  match b with
  | [] => acc
  | x :: r => be_value (256 * acc + x) r
  end.

(** [struct.pack('<d', x)] *)
Definition pack_le_d (x : float64) : bytes := le_bytes 8 (raw_bits x).

(** [struct.unpack('<Q', b)[0]]: the buffer must hold exactly 8 bytes. *)
Definition unpack_le_Q (b : bytes) : result Z :=
  if Nat.eqb (length b) 8 then Ok (le_value b) else Raise struct_error.

(** [struct.pack(">I", v)]: [struct.error] outside [0, 2^32). *)
Definition pack_be_I (v : Z) : result bytes :=
  if (0 <=? v) && (v <? 2 ^ 32) then Ok (be_bytes 4 v) else Raise struct_error.

(** [struct.pack(">Q", v)]: [struct.error] outside [0, 2^64). *)
Definition pack_be_Q (v : Z) : result bytes :=
  if (0 <=? v) && (v <? 2 ^ 64) then Ok (be_bytes 8 v) else Raise struct_error.

(** ** [hex], [%x] and [int.bit_length] *)

Definition hex_digit (d : Z) : ascii :=
  ascii_of_N (Z.to_N (if d <? 10 then 48 + d else 87 + d)).

(** The [n] low hexadecimal digits of [v], most significant first. *)
Fixpoint hex_fixed (n : nat) (v : Z) : str :=
  match n with
  | O => []
  | S k => hex_digit ((v / 16 ^ Z.of_nat k) mod 16) :: hex_fixed k v
  end.

(** Number of hexadecimal digits of [v >= 0] without leading zeros
    (one digit for zero). *)
Definition hex_len (v : Z) : nat :=
  if v =? 0 then 1%nat else S (Z.to_nat (Z.log2 v / 4)).

Definition hex_digits (v : Z) : str := hex_fixed (hex_len v) v.

Definition minus_sign (v : Z) : str := if v <? 0 then ["-"%char] else [].

(** [hex(v)].  Under Python 2 a [long] is rendered with a trailing [L];
    [long_suffix] says whether this value is one. *)
Definition hex (long_suffix : bool) (v : Z) : str :=
  minus_sign v ++ ["0"; "x"]%char ++ hex_digits (Z.abs v)
    ++ (if long_suffix then ["L"%char] else []).

(** [('%%0%dx' % w) % v]: lower-case hexadecimal, zero-padded after the
    sign up to a total width of [w] characters. *)
Definition format_0x (w : Z) (v : Z) : str :=
  let sign := minus_sign v in
  let digits := hex_digits (Z.abs v) in
  sign ++ repeat "0"%char (Z.to_nat w - length sign - length digits) ++ digits.

(** [v.bit_length()] *)
Definition bit_length (v : Z) : Z :=
  if v =? 0 then 0 else Z.log2 (Z.abs v) + 1.

(** ** [binascii.unhexlify] *)

Definition hex_value (c : ascii) : option Z :=
  let n := Z.of_N (N_of_ascii c) in
  if (48 <=? n) && (n <=? 57) then Some (n - 48)
  else if (97 <=? n) && (n <=? 102) then Some (n - 87)
  else if (65 <=? n) && (n <=? 70) then Some (n - 55)
  else None.

Fixpoint unhexlify_pairs (s : str) : result bytes :=
  match s with
  | [] => Ok []
  | hi :: lo :: rest =>
      match hex_value hi, hex_value lo with
      | Some h, Some l => bs <~ unhexlify_pairs rest ;; Ok (16 * h + l :: bs)
      | _, _ => Raise Non_hexadecimal_digit
      end
  | [_] => Raise Odd_length_string
  end.

Definition unhexlify (s : str) : result bytes :=
  if Nat.odd (length s) then Raise Odd_length_string else unhexlify_pairs s.

(** [s.replace('L', '')] *)
Definition remove_L (s : str) : str :=
  filter (fun c => negb (Ascii.eqb c "L"%char)) s.

(** ** [ctypes] integer types (Linux x86-64: [c_uint] is 32 bits wide) *)

Definition c_uint64 (v : Z) : Z := v mod 2 ^ 64.
Definition c_uint32 (v : Z) : Z := v mod 2 ^ 32.
Definition c_uint (v : Z) : Z := v mod 2 ^ 32.
Definition c_int64 (v : Z) : Z := (v + 2 ^ 63) mod 2 ^ 64 - 2 ^ 63.
Definition c_int32 (v : Z) : Z := (v + 2 ^ 31) mod 2 ^ 32 - 2 ^ 31.

(** ** The native library and the interpreter

    [compute_hash] is the function exported by the shared object, applied
    to the [c_ubyte] array and the [c_uint32] length.  [hex_long_suffix]
    tells whether [hex] renders a given integer with a trailing [L]. *)

Class Native : Type := {
  compute_hash : bytes -> Z -> Z;
  hex_long_suffix : Z -> bool
}.

Definition call : Type := bytes * Z.

(** Computations that may call the native library or raise. *)
Definition M (A : Type) : Type := list call -> result A * list call.

Definition ret {A} (a : A) : M A := fun log => (Ok a, log).

Definition bind {A B} (m : M A) (k : A -> M B) : M B :=
  fun log =>
    match m log with
    | (Ok a, log') => k a log'
    | (Raise e, log') => (Raise e, log')
    end.

Definition lift {A} (r : result A) : M A := fun log => (r, log).

Notation "x <- m ;; k" := (bind m (fun x => k))
  (at level 61, m at next level, right associativity).

(** [HASH_SEED = 0x61247FBF  # static hash seed from app] *)
Definition HASH_SEED : Z := 0x61247FBF.

Section Utilities.
Context {native : Native}.

(** [def f2i(float)]: the bit pattern as an integer. *)
Definition f2i (x : float64) : result Z :=
  unpack_le_Q (pack_le_d x).

(** [def f2h(float)]: [hex] of the bit pattern. *)
Definition f2h (x : float64) : result str :=
  v <~ unpack_le_Q (pack_le_d x) ;; Ok (hex (hex_long_suffix v) v).

(** [def d2h(f)] (the file defines it twice, with the same body): drop
    the ["0x"] prefix and any [L], pad to an even number of digits,
    [unhexlify]. *)
Definition d2h (f : float64) : result bytes :=
  h <~ f2h f ;;
  let hex_str := remove_L (skipn 2 h) in
  let hex_str := repeat "0"%char (Nat.modulo (length hex_str) 2) ++ hex_str in
  unhexlify hex_str.

(** [def long_to_bytes(val, endianness='big')].  [(width % 8) or 8] is 8
    when the remainder is 0. *)
Definition long_to_bytes (val : Z) (endianness : str) : result bytes :=
  let width := bit_length val in
  let width := width + (8 - (if width mod 8 =? 0 then 8 else width mod 8)) in
  s <~ unhexlify (format_0x (width / 4) val) ;;
  if list_eq_dec ascii_dec endianness (lit "little")
  then Ok (rev s) else Ok s.

(** The foreign call: the result is converted by [restype = c_uint64]. *)
Definition nhash_compute_hash (arr : bytes) (n : Z) : M Z :=
  fun log => (Ok (c_uint64 (compute_hash arr n)), log ++ [(arr, n)]).

(** [def calcHash(buf)]: [list(bytearray(buf))] is the list of the bytes
    of [buf]; the array and its length are handed to the native function. *)
Definition calcHash (buf : bytes) : M Z :=
  let num_bytes := Z.of_nat (length buf) in
  data <- nhash_compute_hash buf (c_uint32 num_bytes) ;;
  ret (c_uint64 data).

(** [def hash64salt32(buf, seed)] *)
Definition hash64salt32 (buf : bytes) (seed : Z) : M Z :=
  hdr <- lift (pack_be_I seed) ;;
  calcHash (hdr ++ buf).

(** [def hash64salt64(buf, seed)] *)
Definition hash64salt64 (buf : bytes) (seed : Z) : M Z :=
  hdr <- lift (pack_be_Q seed) ;;
  calcHash (hdr ++ buf).

(** [def hash32(buf, seed)]: [>>] on a Python integer is the arithmetic
    shift. *)
Definition hash32 (buf : bytes) (seed : Z) : M Z :=
  hdr <- lift (pack_be_I seed) ;;
  hash64 <- calcHash (hdr ++ buf) ;;
  let signedhash64 := c_int64 hash64 in
  ret (Z.lxor (c_uint signedhash64) (c_uint (Z.shiftr signedhash64 32))).

(** The default [acc=5]: [struct.pack('<d', 5)] packs the double 5.0. *)
Definition acc_or_default (acc : option float64) : float64 :=
  match acc with
  | Some a => a
  | None => f_five
  end.

(** [def generate_location_hash_by_seed(authticket, lat, lng, acc=5)] *)
Definition generate_location_hash_by_seed
    (authticket : bytes) (lat lng : float64) (acc : option float64) : M Z :=
  first_hash <- hash32 authticket HASH_SEED ;;
  b_lat <- lift (d2h lat) ;;
  b_lng <- lift (d2h lng) ;;
  b_acc <- lift (d2h (acc_or_default acc)) ;;
  let location_bytes := (b_lat ++ b_lng) ++ b_acc in
  loc_hash <- hash32 location_bytes first_hash ;;
  ret (c_int32 loc_hash).

(** [def generate_location_hash(lat, lng, acc=5)] *)
Definition generate_location_hash
    (lat lng : float64) (acc : option float64) : M Z :=
  b_lat <- lift (d2h lat) ;;
  b_lng <- lift (d2h lng) ;;
  b_acc <- lift (d2h (acc_or_default acc)) ;;
  let location_bytes := (b_lat ++ b_lng) ++ b_acc in
  loc_hash <- hash32 location_bytes HASH_SEED ;;
  ret (c_int32 loc_hash).

(** [def generate_request_hash(authticket, request)] *)
Definition generate_request_hash (authticket request : bytes) : M Z :=
  first_hash <- hash64salt32 authticket HASH_SEED ;;
  req_hash <- hash64salt64 request first_hash ;;
  ret (c_int64 req_hash).

End Utilities.

(** ** Reference definitions used in the statements *)

(** Smallest number of bytes that hold [v >= 0] (one byte for zero). *)
Definition byte_len (v : Z) : nat :=
  if v =? 0 then 1%nat else S (Z.to_nat (Z.log2 v / 8)).

(** Big-endian encoding on the smallest whole number of bytes. *)
Definition minimal_be_bytes (v : Z) : bytes := be_bytes (byte_len v) v.

(** Reading a string of hexadecimal digits back as a number. *)
Fixpoint hex_parse (acc : Z) (s : str) : option Z :=
  match s with
  | [] => Some acc
  | c :: r =>
      match hex_value c with
      | Some d => hex_parse (16 * acc + d) r
      | None => None
      end
  end.

(** The fixed-width encoder of the specification. *)
Definition float_to_big_endian_bytes (x : float64) : bytes :=
  be_bytes 8 (raw_bits x).

(** The fold of the specification, on the unsigned 64-bit pattern. *)
Definition fold_to_uint32 (h : Z) : Z :=
  Z.lxor (Z.land (Z.shiftr h 32) 0xFFFFFFFF) (Z.land h 0xFFFFFFFF).

(** The two's-complement readings of the specification. *)
Definition reinterpret_as_int32 (v : Z) : Z :=
  if v <? 2 ^ 31 then v else v - 2 ^ 32.

Definition reinterpret_as_int64 (v : Z) : Z :=
  if v <? 2 ^ 63 then v else v - 2 ^ 64.

(** What the native function answers for a buffer, as an unsigned 64-bit
    value. *)
Definition opaque_hash {native : Native} (buf : bytes) : Z :=
  c_uint64 (compute_hash buf (c_uint32 (Z.of_nat (length buf)))).

(** The log entry of one call of the native function on [buf]. *)
Definition call_on (buf : bytes) : call :=
  (buf, c_uint32 (Z.of_nat (length buf))).

(** The salted hashes of the specification. *)
Definition salted_hash {native : Native} (seed : Z) (payload : bytes) : Z :=
  opaque_hash (be_bytes 4 seed ++ payload).

Definition salted_hash64 {native : Native} (seed : Z) (payload : bytes) : Z :=
  opaque_hash (be_bytes 8 seed ++ payload).

(** The payload of the location hashes: the three encodings in the order
    latitude, longitude, accuracy. *)
Definition location_payload (lat lng acc : float64) : bytes :=
  (minimal_be_bytes (raw_bits lat) ++ minimal_be_bytes (raw_bits lng))
    ++ minimal_be_bytes (raw_bits acc).

(** The four steps of the location hash for an arbitrary 32-bit seed. *)
Definition location_pipeline {native : Native}
    (seed : Z) (lat lng acc : float64) : Z :=
  let payload := location_payload lat lng acc in
  let h := salted_hash seed payload in
  let folded := fold_to_uint32 h in
  reinterpret_as_int32 folded.

(** Two stand-ins for the native library: one reads the buffer as a
    big-endian number, the other answers a constant. *)
Definition number_stub : Native :=
  {| compute_hash := fun buf _ => be_value 0 buf;
     hex_long_suffix := fun _ => false |}.

Definition constant_stub (h : Z) : Native :=
  {| compute_hash := fun _ _ => h;
     hex_long_suffix := fun v => 2 ^ 63 <=? v |}.



(** ** The other helpers of the module *)

(** [divmod(a, b)]: floor division and its remainder. *)
Definition divmod (a b : Z) : Z * Z := (a / b, a mod b).

(** [def get_format_time_diff(low, high, ms=True)] on integers.  The
    [ms] branch divides with [/], which on integers is the floor division
    under Python 2; the other branch uses [divmod] only. *)
Definition get_format_time_diff (low high : Z) (ms : bool) : Z * Z * Z :=
  let diff := high - low in
  let '(m, s) := if ms then divmod (diff / 1000) 60 else divmod diff 60 in
  let '(h, m) := divmod m 60 in
  (h, m, s).

(** [s.startswith(prefix)] *)
Fixpoint startswith (s prefix : str) : bool :=
  match prefix, s with
  | [], _ => true
  | _ :: _, [] => false
  | p :: ps, c :: cs => Ascii.eqb c p && startswith cs ps
  end.

(** [def parse_api_endpoint(api_url)] *)
Definition parse_api_endpoint (api_url : str) : str :=
  if negb (startswith api_url (lit "https"))
  then lit "https://" ++ api_url ++ lit "/rpc"
  else api_url.

(** [s.split(sep)] for a one-character separator: the pieces between the
    separators, empty pieces kept. *)
Fixpoint split_on (sep : ascii) (s : str) : list str :=
  match s with
  | [] => [[]]
  | c :: r =>
      if Ascii.eqb c sep then [] :: split_on sep r
      else match split_on sep r with
           | w :: ws => (c :: w) :: ws
           | [] => [[c]]
           end
  end.

Definition char_code (c : ascii) : Z := Z.of_N (N_of_ascii c).

(** [upper] and [lower] on one ASCII character. *)
Definition upper_char (c : ascii) : ascii :=
  let n := char_code c in
  if (97 <=? n) && (n <=? 122) then ascii_of_N (Z.to_N (n - 32)) else c.

Definition lower_char (c : ascii) : ascii :=
  let n := char_code c in
  if (65 <=? n) && (n <=? 90) then ascii_of_N (Z.to_N (n + 32)) else c.

(** [word.capitalize()]: first character upper-cased, the rest lower-cased. *)
Definition capitalize (word : str) : str :=
  match word with
  | [] => []
  | c :: r => upper_char c :: map lower_char r
  end.

(** The generator expression of [to_camel_case]: an empty word is false. *)
Definition camel_word (word : str) : str :=
  match word with
  | [] => lit "_"
  | _ :: _ => capitalize word
  end.

(** [def to_camel_case(value)] *)
Definition to_camel_case (value : str) : str :=
  concat (map camel_word (split_on "_"%char value)).

(** [sorted] on integers. *)
Fixpoint insert_sorted (x : Z) (l : list Z) : list Z :=
  match l with
  | [] => [x]
  | y :: r => if x <=? y then x :: l else y :: insert_sorted x r
  end.

Fixpoint sorted (l : list Z) : list Z :=
  match l with
  | [] => []
  | x :: r => insert_sorted x (sorted r)
  end.

(** The [s2sphere] library as [get_cell_ids] uses it: [covering lat long
    radius] stands for [coverer.get_covering] at levels 15 to 15 of the cap
    around the point [(lat, long)] whose angle is computed from [radius];
    [cell_id] is [x.id()]. *)
Class S2 : Type := {
  cell : Type;
  cell_id : cell -> Z;
  covering : float64 -> float64 -> Z -> list cell
}.

(** [def get_cell_ids(lat, long, radius=500)] *)
Definition get_cell_ids {s2 : S2} (lat long : float64) (radius : option Z)
    : list Z :=
  let radius := match radius with Some r => r | None => 500 end in
  let radius := if radius >? 500 then 500 else radius in
  let cells := covering lat long radius in
  let cells := firstn 21 cells in
  sorted (map cell_id cells).

(** A covering for the examples: [radius] cells below a fixed id, in
    decreasing order. *)
Definition countdown_s2 : S2 :=
  {| cell := Z;
     cell_id := fun c => c;
     covering := fun _ _ radius =>
       map (fun k => 1000 - Z.of_nat k) (seq 0 (Z.to_nat radius)) |}.

(** ** [Rand48]

    The object holds one attribute, [n]; a method takes the state and gives
    back the state after it, with the value it returns when it has one.
    [drand] divides with [/] and is left out. *)

Module Rand48.

Definition state : Type := Z.

(** [__init__(self, seed)] *)
Definition init (seed : Z) : state := seed.

(** [seed(self, seed)] *)
Definition seed (seed : Z) (self : state) : state := seed.

(** [srand(self, seed)] *)
Definition srand (seed : Z) (self : state) : state :=
  Z.shiftl seed 16 + 0x330e.

(** [next(self)] *)
Definition next (self : state) : Z * state :=
  let n := Z.land (25214903917 * self + 11) (2 ^ 48 - 1) in
  (n, n).

(** [lrand(self)] *)
Definition lrand (self : state) : Z * state :=
  let '(v, self) := next self in
  (Z.shiftr v 17, self).

(** [mrand(self)] *)
Definition mrand (self : state) : Z * state :=
  let '(v, self) := next self in
  let n := Z.shiftr v 16 in
  let n := if Z.land n (Z.shiftl 1 31) =? 0 then n else n - Z.shiftl 1 32 in
  (n, self).

(** The values of [k] calls of [next] in a row. *)
Fixpoint draws (k : nat) (self : state) : list Z :=
  match k with
  | O => []
  | S k' => let '(v, self) := next self in v :: draws k' self
  end.

End Rand48.

(** ** [h2f] *)

Inductive h2f_error : Type :=
| ValueError
| h2f_struct_error.

(** White space for [int]: the C set (tab to carriage return, and the
    blank); on a Python 3 [str] also the two Unicode spaces of the Latin-1
    range, U+0085 and U+00A0, which are turned into blanks before the
    number is read. *)
Definition is_space (wide : bool) (c : ascii) : bool :=
  let n := char_code c in
  ((9 <=? n) && (n <=? 13)) || (n =? 32)
  || (wide && ((n =? 133) || (n =? 160))).

Fixpoint lstrip (wide : bool) (s : str) : str :=
  match s with
  | [] => []
  | c :: r => if is_space wide c then lstrip wide r else s
  end.

Fixpoint rstrip (wide : bool) (s : str) : str :=
  match s with
  | [] => []
  | c :: r =>
      match rstrip wide r with
      | [] => if is_space wide c then [] else [c]
      | r' => c :: r'
      end
  end.

(** The digits of an [int] literal: hexadecimal digits, with single
    underscores between digits when the interpreter knows digit separators
    ([prev_digit] tells whether the previous character was a digit). *)
Fixpoint int_digits (separators : bool) (prev_digit : bool) (acc : Z) (s : str)
    : option Z :=
  match s with
  | [] => if prev_digit then Some acc else None
  | c :: r =>
      if Ascii.eqb c "_"%char then
        if separators && prev_digit then int_digits separators false acc r
        else None
      else
        match hex_value c with
        | Some d => int_digits separators true (16 * acc + d) r
        | None => None
        end
  end.

(** [int(s, 16)]: white space around, a sign, the [0x] prefix (after which
    one underscore may stand when separators are known), then the digits.
    [None] is [ValueError]. *)
Definition int_base16 (separators wide : bool) (s : str) : option Z :=
  let s := rstrip wide (lstrip wide s) in
  let '(negative, s) :=
    match s with
    | "-"%char :: r => (true, r)
    | "+"%char :: r => (false, r)
    | _ => (false, s)
    end in
  let s :=
    match s with
    | "0"%char :: x :: r =>
        if Ascii.eqb x "x"%char || Ascii.eqb x "X"%char then
          match r with
          | u :: r' => if separators && Ascii.eqb u "_"%char then r' else r
          | [] => r
          end
        else s
    | _ => s
    end in
  match int_digits separators false 0 s with
  | Some v => Some (if negative then - v else v)
  | None => None
  end.

(** [struct.pack('<Q', v)] *)
Definition pack_le_Q (v : Z) : result bytes :=
  if (0 <=? v) && (v <? 2 ^ 64) then Ok (le_bytes 8 v) else Raise struct_error.

(** Eight bytes hold 64 bits. *)
Definition in_u64_mod (v : Z) : in_u64 (v mod 2 ^ 64) = true.
Proof.
  unfold in_u64. pose proof (Z.mod_pos_bound v (2 ^ 64) ltac:(lia)).
  apply andb_true_intro. split; [apply Z.leb_le|apply Z.ltb_lt]; lia.
Qed.

(** [struct.unpack('<d', b)[0]]: the double whose pattern the 8 bytes hold. *)
Definition unpack_le_d (b : bytes) : result float64 :=
  if Nat.eqb (length b) 8
  then Ok (mkFloat64 (le_value b mod 2 ^ 64) (in_u64_mod (le_value b)))
  else Raise struct_error.

(** [def h2f(hex)] *)
Definition h2f (separators wide : bool) (hex : str) : h2f_error + float64 :=
  match int_base16 separators wide hex with
  | None => inl ValueError
  | Some v =>
      match pack_le_Q v with
      | Raise _ => inl h2f_struct_error
      | Ok b =>
          match unpack_le_d b with
          | Raise _ => inl h2f_struct_error
          | Ok x => inr x
          end
      end
  end.

(** * Properties *)

(** ** The model of the builtins on known values *)

Example hex_255 : hex false 255 = lit "0xff".
Proof. reflexivity. Qed.

Example hex_zero : hex false 0 = lit "0x0".
Proof. reflexivity. Qed.

Example hex_negative : hex false (-255) = lit "-0xff".
Proof. reflexivity. Qed.

Example hex_long : hex true (2 ^ 64 - 1) = lit "0xffffffffffffffffL".
Proof. reflexivity. Qed.

Example format_padded : format_0x 4 255 = lit "00ff".
Proof. reflexivity. Qed.

Example format_wide_value : format_0x 2 0xabcde = lit "abcde".
Proof. reflexivity. Qed.

Example format_negative : format_0x 4 (-255) = lit "-0ff".
Proof. reflexivity. Qed.

Example bit_length_values :
  bit_length 0 = 0 /\ bit_length 1 = 1 /\ bit_length 255 = 8
  /\ bit_length 256 = 9 /\ bit_length (-256) = 9.
Proof. repeat split. Qed.

Example unhexlify_bytes : unhexlify (lit "00ffAb10") = Ok [0; 255; 171; 16].
Proof. reflexivity. Qed.

Example unhexlify_odd : unhexlify (lit "abc") = Raise Odd_length_string.
Proof. reflexivity. Qed.

Example unhexlify_not_hex : unhexlify (lit "0x") = Raise Non_hexadecimal_digit.
Proof. reflexivity. Qed.

Example pack_HASH_SEED : pack_be_I HASH_SEED = Ok [0x61; 0x24; 0x7F; 0xBF].
Proof. reflexivity. Qed.

Example pack_negative : pack_be_I (-1) = Raise struct_error.
Proof. reflexivity. Qed.

Example pack_le_one :
  pack_le_d f_one = [0; 0; 0; 0; 0; 0; 0xF0; 0x3F].
Proof. reflexivity. Qed.

Example arithmetic_shift : Z.shiftr (-5) 1 = -3.
Proof. reflexivity. Qed.

Example d2h_one :
  @d2h number_stub f_one = Ok [0x3F; 0xF0; 0; 0; 0; 0; 0; 0].
Proof. reflexivity. Qed.

Example d2h_neg_one_long_suffix :
  @d2h (constant_stub 0) f_neg_one = Ok [0xBF; 0xF0; 0; 0; 0; 0; 0; 0].
Proof. reflexivity. Qed.

Example long_to_bytes_256 :
  long_to_bytes 256 (lit "big") = Ok [1; 0]
  /\ long_to_bytes 256 (lit "little") = Ok [0; 1].
Proof. split; reflexivity. Qed.

Example long_to_bytes_negative :
  long_to_bytes (-1) (lit "big") = Raise Non_hexadecimal_digit
  /\ long_to_bytes (-255) (lit "big") = Raise Odd_length_string.
Proof. split; reflexivity. Qed.

(** ** Arithmetic of digits and bytes *)

Lemma pow256_pos (k : nat) : 0 < 256 ^ Z.of_nat k.
Proof. apply Z.pow_pos_nonneg; lia. Qed.

Lemma pow16_pos (k : nat) : 0 < 16 ^ Z.of_nat k.
Proof. apply Z.pow_pos_nonneg; lia. Qed.

Lemma length_le_bytes (n : nat) (v : Z) : length (le_bytes n v) = n.
Proof.
  revert v; induction n as [|n IH]; intros v; simpl; [reflexivity|].
  now rewrite IH.
Qed.

Lemma length_be_bytes (n : nat) (v : Z) : length (be_bytes n v) = n.
Proof.
  induction n as [|n IH]; simpl; [reflexivity|]. now rewrite IH.
Qed.

Lemma length_hex_fixed (n : nat) (v : Z) : length (hex_fixed n v) = n.
Proof.
  induction n as [|n IH]; simpl; [reflexivity|]. now rewrite IH.
Qed.

Lemma le_value_le_bytes (n : nat) (v : Z) :
  le_value (le_bytes n v) = v mod 256 ^ Z.of_nat n.
Proof.
  revert v; induction n as [|n IH]; intros v.
  - simpl. now rewrite Z.mod_1_r.
  - cbn [le_bytes le_value]. rewrite IH.
    rewrite Nat2Z.inj_succ, Z.pow_succ_r by lia.
    rewrite Z.rem_mul_r by (pose proof (pow256_pos n); lia).
    reflexivity.
Qed.

Lemma in_u64_range (v : Z) : in_u64 v = true <-> 0 <= v < 2 ^ 64.
Proof. unfold in_u64. rewrite andb_true_iff, Z.leb_le, Z.ltb_lt. tauto. Qed.

Lemma raw_bits_bounds (x : float64) : 0 <= raw_bits x < 2 ^ 64.
Proof. apply in_u64_range, raw_bits_range. Qed.

Lemma f2i_raw_bits (x : float64) : f2i x = Ok (raw_bits x).
Proof.
  unfold f2i, unpack_le_Q, pack_le_d.
  rewrite length_le_bytes. cbn [Nat.eqb].
  rewrite le_value_le_bytes.
  change (256 ^ Z.of_nat 8) with (2 ^ 64).
  rewrite Z.mod_small by apply raw_bits_bounds. reflexivity.
Qed.

Lemma digit_cases (d : Z) :
  0 <= d < 16 ->
  In d [0; 1; 2; 3; 4; 5; 6; 7; 8; 9; 10; 11; 12; 13; 14; 15].
Proof.
  intros H. simpl.
  assert (d = 0 \/ d = 1 \/ d = 2 \/ d = 3 \/ d = 4 \/ d = 5 \/ d = 6 \/ d = 7
          \/ d = 8 \/ d = 9 \/ d = 10 \/ d = 11 \/ d = 12 \/ d = 13 \/ d = 14
          \/ d = 15) by lia.
  intuition auto.
Qed.

Lemma hex_value_hex_digit (d : Z) :
  0 <= d < 16 -> hex_value (hex_digit d) = Some d.
Proof.
  intros H. apply digit_cases in H. simpl in H.
  repeat (destruct H as [H|H]; [subst d; reflexivity|]). contradiction.
Qed.

Lemma hex_digit_not_L (d : Z) :
  0 <= d < 16 -> Ascii.eqb (hex_digit d) "L"%char = false.
Proof.
  intros H. apply digit_cases in H. simpl in H.
  repeat (destruct H as [H|H]; [subst d; reflexivity|]). contradiction.
Qed.

Lemma remove_L_hex_fixed (n : nat) (v : Z) :
  remove_L (hex_fixed n v) = hex_fixed n v.
Proof.
  induction n as [|n IH]; [reflexivity|].
  cbn [hex_fixed]. unfold remove_L in *. cbn [filter].
  rewrite hex_digit_not_L by (apply Z.mod_pos_bound; lia).
  cbn [negb]. now rewrite IH.
Qed.

Lemma remove_L_hex_digits (v : Z) : remove_L (hex_digits v) = hex_digits v.
Proof. apply remove_L_hex_fixed. Qed.

Lemma byte_of_two_digits (w : Z) :
  16 * ((w / 16) mod 16) + w mod 16 = w mod 256.
Proof.
  change 256 with (16 * 16).
  rewrite (Z.rem_mul_r w 16 16) by lia. lia.
Qed.

Lemma unhexlify_pairs_hex_fixed (n : nat) (v : Z) :
  unhexlify_pairs (hex_fixed (2 * n) v) = Ok (be_bytes n v).
Proof.
  induction n as [|n IH]; [reflexivity|].
  replace (2 * S n)%nat with (S (S (2 * n))) by lia.
  cbn [hex_fixed unhexlify_pairs be_bytes].
  rewrite !hex_value_hex_digit by (apply Z.mod_pos_bound; lia).
  rewrite IH. cbn [rbind]. do 2 f_equal.
  replace (Z.of_nat (S (2 * n))) with (Z.succ (Z.of_nat (2 * n))) by lia.
  rewrite Z.pow_succ_r by lia.
  replace (16 ^ Z.of_nat (2 * n)) with (256 ^ Z.of_nat n).
  2:{ rewrite Nat2Z.inj_mul, Z.pow_mul_r by lia. reflexivity. }
  pose proof (pow256_pos n) as Hp.
  replace (v / (16 * 256 ^ Z.of_nat n)) with (v / 256 ^ Z.of_nat n / 16).
  - apply byte_of_two_digits.
  - rewrite Z.div_div by lia. f_equal. lia.
Qed.

Lemma unhexlify_hex_fixed (n : nat) (v : Z) :
  unhexlify (hex_fixed (2 * n) v) = Ok (be_bytes n v).
Proof.
  unfold unhexlify. rewrite length_hex_fixed.
  replace (Nat.odd (2 * n)) with false.
  - apply unhexlify_pairs_hex_fixed.
  - symmetry. rewrite <- Nat.negb_even, Nat.even_mul. reflexivity.
Qed.

Lemma hex_fixed_pad (k n : nat) (v : Z) :
  0 <= v < 16 ^ Z.of_nat n ->
  hex_fixed (k + n) v = repeat "0"%char k ++ hex_fixed n v.
Proof.
  intros Hv. induction k as [|k IH]; [reflexivity|].
  cbn [Nat.add hex_fixed repeat app]. rewrite IH. f_equal.
  rewrite Z.div_small; [reflexivity|].
  split; [lia|]. apply Z.lt_le_trans with (16 ^ Z.of_nat n); [lia|].
  apply Z.pow_le_mono_r; lia.
Qed.

Lemma hex_len_bound (v : Z) : 0 <= v -> v < 16 ^ Z.of_nat (hex_len v).
Proof.
  intros Hv. unfold hex_len. destruct (Z.eqb_spec v 0) as [->|Hne]; [reflexivity|].
  assert (Hpos : 0 < v) by lia.
  pose proof (Z.log2_spec v Hpos) as [_ Hlt].
  pose proof (Z.log2_nonneg v) as Hl.
  rewrite Nat2Z.inj_succ, Z2Nat.id by (apply Z.div_pos; lia).
  change 16 with (2 ^ 4). rewrite <- Z.pow_mul_r by (try apply Z.le_le_succ_r; try apply Z.div_pos; lia).
  apply Z.lt_le_trans with (2 ^ Z.succ (Z.log2 v)); [exact Hlt|].
  apply Z.pow_le_mono_r; [lia|].
  pose proof (Z.mod_pos_bound (Z.log2 v) 4 ltac:(lia)).
  pose proof (Z.div_mod (Z.log2 v) 4 ltac:(lia)). lia.
Qed.

Lemma byte_len_bound (v : Z) : 0 <= v -> v < 256 ^ Z.of_nat (byte_len v).
Proof.
  intros Hv. unfold byte_len. destruct (Z.eqb_spec v 0) as [->|Hne]; [reflexivity|].
  assert (Hpos : 0 < v) by lia.
  pose proof (Z.log2_spec v Hpos) as [_ Hlt].
  pose proof (Z.log2_nonneg v) as Hl.
  rewrite Nat2Z.inj_succ, Z2Nat.id by (apply Z.div_pos; lia).
  change 256 with (2 ^ 8). rewrite <- Z.pow_mul_r by (try apply Z.le_le_succ_r; try apply Z.div_pos; lia).
  apply Z.lt_le_trans with (2 ^ Z.succ (Z.log2 v)); [exact Hlt|].
  apply Z.pow_le_mono_r; [lia|].
  pose proof (Z.mod_pos_bound (Z.log2 v) 8 ltac:(lia)).
  pose proof (Z.div_mod (Z.log2 v) 8 ltac:(lia)). lia.
Qed.

(** No shorter encoding exists: one byte less cannot hold [v]. *)
Lemma byte_len_minimal (v : Z) :
  0 < v -> 256 ^ Z.of_nat (Nat.pred (byte_len v)) <= v.
Proof.
  intros Hpos. unfold byte_len.
  destruct (Z.eqb_spec v 0) as [->|Hne]; [lia|].
  pose proof (Z.log2_spec v Hpos) as [Hle _].
  pose proof (Z.log2_nonneg v) as Hl.
  cbn [Nat.pred]. rewrite Z2Nat.id by (apply Z.div_pos; lia).
  change 256 with (2 ^ 8). rewrite <- Z.pow_mul_r by (try apply Z.div_pos; lia).
  apply Z.le_trans with (2 ^ Z.log2 v); [|exact Hle].
  apply Z.pow_le_mono_r; [lia|].
  pose proof (Z.mod_pos_bound (Z.log2 v) 8 ltac:(lia)).
  pose proof (Z.div_mod (Z.log2 v) 8 ltac:(lia)). lia.
Qed.

Lemma hex_len_byte_len (v : Z) :
  0 <= v -> (Nat.modulo (hex_len v) 2 + hex_len v = 2 * byte_len v)%nat.
Proof.
  intros Hv. unfold hex_len, byte_len.
  destruct (Z.eqb_spec v 0) as [->|Hne]; [reflexivity|].
  pose proof (Z.log2_nonneg v) as Hl.
  replace (Z.log2 v / 8) with (Z.log2 v / 4 / 2) by (rewrite Z.div_div by lia; reflexivity).
  set (q := Z.log2 v / 4).
  assert (Hq : 0 <= q) by (apply Z.div_pos; lia).
  rewrite Z2Nat.inj_div by lia. change (Z.to_nat 2) with 2%nat.
  set (n := Z.to_nat q).
  pose proof (Nat.div_mod_eq n 2) as E1.
  pose proof (Nat.mod_upper_bound n 2 ltac:(lia)) as B1.
  pose proof (Nat.div_mod_eq (S n) 2) as E2.
  pose proof (Nat.mod_upper_bound (S n) 2 ltac:(lia)) as B2.
  lia.
Qed.

Lemma padded_hex_digits (v : Z) :
  0 <= v ->
  repeat "0"%char (Nat.modulo (length (hex_digits v)) 2) ++ hex_digits v
  = hex_fixed (2 * byte_len v) v.
Proof.
  intros Hv. unfold hex_digits. rewrite length_hex_fixed.
  rewrite <- hex_fixed_pad by (split; [lia|apply hex_len_bound; lia]).
  now rewrite hex_len_byte_len.
Qed.

Lemma byte_len_eight (v : Z) :
  0 <= v < 2 ^ 64 -> (byte_len v = 8%nat <-> 2 ^ 56 <= v).
Proof.
  intros Hv. unfold byte_len.
  destruct (Z.eqb_spec v 0) as [->|Hne]; [split; [discriminate|lia]|].
  assert (Hpos : 0 < v) by lia.
  pose proof (Z.log2_spec v Hpos) as [Hle Hlt].
  pose proof (Z.log2_nonneg v) as Hl.
  assert (Hl64 : Z.log2 v < 64) by (apply Z.log2_lt_pow2; lia).
  assert (Hq : 0 <= Z.log2 v / 8) by (apply Z.div_pos; lia).
  pose proof (Z.mod_pos_bound (Z.log2 v) 8 ltac:(lia)) as Hm.
  pose proof (Z.div_mod (Z.log2 v) 8 ltac:(lia)) as Hd.
  split; intros H.
  - assert (Z.log2 v / 8 = 7) by lia.
    apply Z.le_trans with (2 ^ Z.log2 v); [|exact Hle].
    apply Z.pow_le_mono_r; lia.
  - assert (56 <= Z.log2 v) by (apply Z.log2_le_pow2; lia).
    assert (Z.log2 v / 8 = 7) by lia. lia.
Qed.

(** [hex_digits] is the usual rendering: it reads back as the number, and
    it has no leading zero. *)
Lemma hex_parse_hex_fixed (n : nat) (v acc : Z) :
  hex_parse acc (hex_fixed n v)
  = Some (acc * 16 ^ Z.of_nat n + v mod 16 ^ Z.of_nat n).
Proof.
  revert acc; induction n as [|n IH]; intros acc.
  - simpl. rewrite Z.mod_1_r. f_equal. lia.
  - cbn [hex_fixed hex_parse].
    rewrite hex_value_hex_digit by (apply Z.mod_pos_bound; lia).
    rewrite IH. f_equal.
    rewrite Nat2Z.inj_succ, Z.pow_succ_r by lia.
    pose proof (pow16_pos n) as Hp.
    rewrite (Z.mul_comm 16 (16 ^ Z.of_nat n)).
    rewrite (Z.rem_mul_r v (16 ^ Z.of_nat n) 16) by lia.
    ring.
Qed.

Lemma hex_digits_read_back (v : Z) :
  0 <= v -> hex_parse 0 (hex_digits v) = Some v.
Proof.
  intros Hv. unfold hex_digits. rewrite hex_parse_hex_fixed.
  rewrite Z.mod_small by (split; [lia|apply hex_len_bound; lia]).
  reflexivity.
Qed.

Lemma hex_digits_leading_digit (v : Z) :
  0 < v ->
  exists d rest, hex_digits v = hex_digit d :: rest /\ 1 <= d < 16.
Proof.
  intros Hpos. unfold hex_digits, hex_len.
  destruct (Z.eqb_spec v 0) as [|_]; [lia|].
  pose proof (Z.log2_spec v Hpos) as [Hle Hlt].
  pose proof (Z.log2_nonneg v) as Hl.
  set (q := Z.log2 v / 4).
  assert (Hq : 0 <= q) by (apply Z.div_pos; lia).
  assert (Hq4 : 4 * q <= Z.log2 v < 4 * q + 4)
    by (unfold q; Z.div_mod_to_equations; lia).
  cbn [hex_fixed]. rewrite Z2Nat.id by exact Hq.
  assert (Hp : 0 < 16 ^ q) by (apply Z.pow_pos_nonneg; lia).
  assert (Hlo : 16 ^ q <= v).
  { change 16 with (2 ^ 4). rewrite <- Z.pow_mul_r by lia.
    apply Z.le_trans with (2 ^ Z.log2 v); [|exact Hle].
    apply Z.pow_le_mono_r; lia. }
  assert (Hhi : v < 16 * 16 ^ q).
  { rewrite <- Z.pow_succ_r by exact Hq.
    change 16 with (2 ^ 4). rewrite <- Z.pow_mul_r by lia.
    apply Z.lt_le_trans with (2 ^ Z.succ (Z.log2 v)); [exact Hlt|].
    apply Z.pow_le_mono_r; lia. }
  assert (Hd : 1 <= v / 16 ^ q < 16).
  { split.
    - apply Z.div_le_lower_bound; lia.
    - apply Z.div_lt_upper_bound; lia. }
  exists (v / 16 ^ q), (hex_fixed (Z.to_nat q) v).
  rewrite Z.mod_small by lia. split; [reflexivity|exact Hd].
Qed.

(** Big-endian order is the reverse of little-endian order. *)
Lemma be_bytes_snoc (n : nat) (v : Z) :
  be_bytes (S n) v = be_bytes n (v / 256) ++ [v mod 256].
Proof.
  induction n as [|n IH].
  - simpl. now rewrite Z.div_1_r.
  - change (be_bytes (S (S n)) v)
      with ((v / 256 ^ Z.of_nat (S n)) mod 256 :: be_bytes (S n) v).
    rewrite IH. cbn [be_bytes app]. f_equal. f_equal.
    rewrite Nat2Z.inj_succ, Z.pow_succ_r by lia.
    pose proof (pow256_pos n). rewrite Z.div_div by lia. reflexivity.
Qed.

Lemma be_bytes_rev_le_bytes (n : nat) (v : Z) :
  be_bytes n v = rev (le_bytes n v).
Proof.
  revert v; induction n as [|n IH]; intros v; [reflexivity|].
  rewrite be_bytes_snoc. cbn [le_bytes rev]. now rewrite IH.
Qed.

(** ** The fields of a double *)

Lemma sign_bit_spec (x : float64) :
  sign_bit x = true <-> 2 ^ 63 <= raw_bits x.
Proof.
  pose proof (raw_bits_bounds x) as Hb. unfold sign_bit.
  rewrite Z.testbit_true by lia.
  split; intros H.
  - destruct (Z.lt_ge_cases (raw_bits x) (2 ^ 63)) as [Hlt|]; [|assumption].
    rewrite Z.div_small in H by lia. discriminate H.
  - replace (raw_bits x) with (raw_bits x - 2 ^ 63 + 1 * 2 ^ 63) by lia.
    rewrite Z.div_add, Z.div_small by lia. reflexivity.
Qed.

Lemma raw_bits_fields (x : float64) :
  raw_bits x
  = (if sign_bit x then 2 ^ 63 else 0)
    + biased_exponent x * 2 ^ 52 + fraction x.
Proof.
  pose proof (raw_bits_bounds x) as Hb.
  pose proof (sign_bit_spec x) as Hs.
  unfold biased_exponent, fraction.
  destruct (sign_bit x).
  - assert (2 ^ 63 <= raw_bits x) by (apply Hs; reflexivity).
    Z.div_mod_to_equations. lia.
  - assert (raw_bits x < 2 ^ 63).
    { destruct (Z.lt_ge_cases (raw_bits x) (2 ^ 63)) as [|Hge]; [assumption|].
      apply Hs in Hge. discriminate Hge. }
    Z.div_mod_to_equations. lia.
Qed.

(** The top byte of the pattern is nonzero exactly for the negative values
    and for the values of biased exponent 16 or more (magnitude at least
    2^-1007, infinities and NaNs included). *)
Lemma top_byte_nonzero_iff (x : float64) :
  2 ^ 56 <= raw_bits x <-> sign_bit x = true \/ 16 <= biased_exponent x.
Proof.
  pose proof (raw_bits_bounds x) as Hb.
  pose proof (raw_bits_fields x) as Hf.
  assert (He : 0 <= biased_exponent x < 2 ^ 11)
    by (apply Z.mod_pos_bound; lia).
  assert (Hr : 0 <= fraction x < 2 ^ 52) by (apply Z.mod_pos_bound; lia).
  destruct (sign_bit x); split; intros H; try lia; auto.
Qed.

Example fields_of_one :
  sign_bit f_one = false /\ biased_exponent f_one = 1023 /\ fraction f_one = 0.
Proof. repeat split. Qed.

Example fields_of_five :
  sign_bit f_five = false /\ biased_exponent f_five = 1025
  /\ fraction f_five = 2 ^ 50.
Proof. repeat split. Qed.

Example fields_of_tiny :
  sign_bit f_tiny = false /\ biased_exponent f_tiny = 15 /\ fraction f_tiny = 0.
Proof. repeat split. Qed.

Example fields_of_neg_zero :
  sign_bit f_neg_zero = true /\ biased_exponent f_neg_zero = 0
  /\ fraction f_neg_zero = 0.
Proof. repeat split. Qed.

(** ** The float encoder *)

Section Encoder.
Context {native : Native}.

Lemma f2h_digits (x : float64) :
  exists suffix,
    f2h x = Ok (["0"; "x"]%char ++ hex_digits (raw_bits x) ++ suffix)
    /\ remove_L suffix = [].
Proof.
  pose proof (raw_bits_bounds x) as Hb.
  unfold f2h. fold (f2i x). rewrite f2i_raw_bits. cbn [rbind].
  unfold hex, minus_sign.
  replace (raw_bits x <? 0) with false by (symmetry; apply Z.ltb_ge; lia).
  rewrite Z.abs_eq by lia.
  exists (if hex_long_suffix (raw_bits x) then ["L"%char] else []).
  split; [reflexivity|]. now destruct (hex_long_suffix (raw_bits x)).
Qed.

(** [d2h] never raises; it yields the big-endian bytes of the bit pattern
    on the smallest whole number of bytes. *)
Lemma d2h_minimal (x : float64) :
  d2h x = Ok (minimal_be_bytes (raw_bits x)).
Proof.
  pose proof (raw_bits_bounds x) as Hb.
  destruct (f2h_digits x) as (suffix & Hh & Hs).
  unfold d2h. rewrite Hh. cbn [rbind app skipn].
  unfold remove_L in *. rewrite filter_app, Hs, app_nil_r.
  fold (remove_L (hex_digits (raw_bits x))).
  rewrite remove_L_hex_digits, padded_hex_digits by lia.
  apply unhexlify_hex_fixed.
Qed.

Lemma d2h_length (x : float64) :
  exists b, d2h x = Ok b /\ length b = byte_len (raw_bits x).
Proof.
  exists (minimal_be_bytes (raw_bits x)). split; [apply d2h_minimal|].
  apply length_be_bytes.
Qed.

(** The encoder has the fixed width of 8 bytes exactly on the patterns
    whose top byte is not zero. *)
Lemma d2h_fixed_width_iff (x : float64) :
  d2h x = Ok (float_to_big_endian_bytes x) <-> 2 ^ 56 <= raw_bits x.
Proof.
  pose proof (raw_bits_bounds x) as Hb.
  rewrite d2h_minimal, <- (byte_len_eight _ Hb).
  unfold minimal_be_bytes, float_to_big_endian_bytes. split.
  - intros H. injection H as H. apply (f_equal (@length _)) in H.
    now rewrite !length_be_bytes in H.
  - intros ->. reflexivity.
Qed.

Lemma d2h_negative (x : float64) :
  sign_bit x = true -> d2h x = Ok (float_to_big_endian_bytes x).
Proof.
  intros Hs. apply d2h_fixed_width_iff, top_byte_nonzero_iff. now left.
Qed.

(** Below 2^-1007 a nonnegative value loses bytes. *)
Lemma d2h_short (x : float64) :
  sign_bit x = false -> biased_exponent x < 16 ->
  exists b, d2h x = Ok b /\ (length b < 8)%nat.
Proof.
  intros Hs He. pose proof (raw_bits_bounds x) as Hb.
  exists (minimal_be_bytes (raw_bits x)). split; [apply d2h_minimal|].
  unfold minimal_be_bytes. rewrite length_be_bytes.
  assert (Hlt : raw_bits x < 2 ^ 56).
  { destruct (Z.lt_ge_cases (raw_bits x) (2 ^ 56)) as [|Hge]; [assumption|].
    apply top_byte_nonzero_iff in Hge. destruct Hge as [Hge|Hge];
      [rewrite Hs in Hge; discriminate Hge|lia]. }
  unfold byte_len. destruct (Z.eqb_spec (raw_bits x) 0) as [|Hne]; [lia|].
  assert (Z.log2 (raw_bits x) < 56) by (apply Z.log2_lt_pow2; lia).
  pose proof (Z.log2_nonneg (raw_bits x)).
  assert (0 <= Z.log2 (raw_bits x) / 8 < 7)
    by (Z.div_mod_to_equations; lia).
  lia.
Qed.

Example d2h_neg_zero :
  d2h f_neg_zero = Ok [0x80; 0; 0; 0; 0; 0; 0; 0].
Proof. rewrite d2h_minimal. reflexivity. Qed.

Example d2h_min_subnormal : d2h f_min_subnormal = Ok [1].
Proof. rewrite d2h_minimal. reflexivity. Qed.

End Encoder.

(** ** Fixed-width integers *)

Lemma c_uint64_range (v : Z) : 0 <= c_uint64 v < 2 ^ 64.
Proof. apply Z.mod_pos_bound. lia. Qed.

Lemma c_uint64_small (v : Z) : 0 <= v < 2 ^ 64 -> c_uint64 v = v.
Proof. apply Z.mod_small. Qed.

Lemma c_int32_reinterpret (v : Z) :
  0 <= v < 2 ^ 32 -> c_int32 v = reinterpret_as_int32 v.
Proof.
  intros Hv. unfold c_int32, reinterpret_as_int32.
  destruct (Z.ltb_spec v (2 ^ 31)) as [Hlt|Hge].
  - rewrite Z.mod_small; lia.
  - replace (v + 2 ^ 31) with (v - 2 ^ 31 + 1 * 2 ^ 32) by lia.
    rewrite Z.mod_add, Z.mod_small; lia.
Qed.

Lemma c_int64_reinterpret (v : Z) :
  0 <= v < 2 ^ 64 -> c_int64 v = reinterpret_as_int64 v.
Proof.
  intros Hv. unfold c_int64, reinterpret_as_int64.
  destruct (Z.ltb_spec v (2 ^ 63)) as [Hlt|Hge].
  - rewrite Z.mod_small; lia.
  - replace (v + 2 ^ 63) with (v - 2 ^ 63 + 1 * 2 ^ 64) by lia.
    rewrite Z.mod_add, Z.mod_small; lia.
Qed.

Lemma c_uint_c_int32 (v : Z) : 0 <= v < 2 ^ 32 -> c_uint (c_int32 v) = v.
Proof.
  intros Hv. rewrite c_int32_reinterpret by lia.
  unfold c_uint, reinterpret_as_int32.
  destruct (Z.ltb_spec v (2 ^ 31)) as [Hlt|Hge].
  - apply Z.mod_small; lia.
  - replace (v - 2 ^ 32) with (v + (-1) * 2 ^ 32) by lia.
    rewrite Z.mod_add by lia. apply Z.mod_small; lia.
Qed.

Lemma lxor_below_pow2 (a b n : Z) :
  0 <= n -> 0 <= a < 2 ^ n -> 0 <= b < 2 ^ n -> 0 <= Z.lxor a b < 2 ^ n.
Proof.
  intros Hn Ha Hb.
  assert (Hx : 0 <= Z.lxor a b) by (apply Z.lxor_nonneg; lia).
  split; [exact Hx|].
  destruct (Z.eq_dec n 0) as [->|Hn0].
  { assert (a = 0) by (simpl in Ha; lia). assert (b = 0) by (simpl in Hb; lia).
    subst. reflexivity. }
  destruct (Z.eq_dec (Z.lxor a b) 0) as [->|Hne].
  - apply Z.pow_pos_nonneg; lia.
  - apply Z.log2_lt_pow2; [lia|].
    apply Z.le_lt_trans with (Z.max (Z.log2 a) (Z.log2 b)).
    + apply Z.log2_lxor; lia.
    + assert (La : Z.log2 a < n).
      { destruct (Z.eq_dec a 0) as [->|]; [simpl; lia|apply Z.log2_lt_pow2; lia]. }
      assert (Lb : Z.log2 b < n).
      { destruct (Z.eq_dec b 0) as [->|]; [simpl; lia|apply Z.log2_lt_pow2; lia]. }
      lia.
Qed.

Lemma fold_to_uint32_mod (h : Z) :
  fold_to_uint32 h = Z.lxor ((h / 2 ^ 32) mod 2 ^ 32) (h mod 2 ^ 32).
Proof.
  unfold fold_to_uint32.
  change 0xFFFFFFFF with (Z.ones 32).
  rewrite !Z.land_ones, Z.shiftr_div_pow2 by lia. reflexivity.
Qed.

Lemma fold_to_uint32_range (h : Z) : 0 <= fold_to_uint32 h < 2 ^ 32.
Proof.
  rewrite fold_to_uint32_mod.
  apply lxor_below_pow2; [lia| |]; apply Z.mod_pos_bound; lia.
Qed.

(** The fold as [hash32] writes it, through the signed 64-bit value and an
    arithmetic shift, is the fold of the unsigned pattern. *)
Lemma signed_fold (h : Z) :
  0 <= h < 2 ^ 64 ->
  Z.lxor (c_uint (c_int64 h)) (c_uint (Z.shiftr (c_int64 h) 32))
  = fold_to_uint32 h.
Proof.
  intros Hh. rewrite fold_to_uint32_mod, Z.lxor_comm.
  rewrite c_int64_reinterpret by lia.
  unfold c_uint, reinterpret_as_int64. rewrite Z.shiftr_div_pow2 by lia.
  destruct (Z.ltb_spec h (2 ^ 63)) as [Hlt|Hge]; [reflexivity|].
  f_equal.
  - replace (h - 2 ^ 64) with (h + (- 2 ^ 32) * 2 ^ 32) by lia.
    rewrite Z.div_add by lia.
    replace (h / 2 ^ 32 + - 2 ^ 32) with (h / 2 ^ 32 + (-1) * 2 ^ 32) by lia.
    now rewrite Z.mod_add by lia.
  - replace (h - 2 ^ 64) with (h + (- 2 ^ 32) * 2 ^ 32) by lia.
    now rewrite Z.mod_add by lia.
Qed.

Lemma be_value_be_bytes (n : nat) (v acc : Z) :
  be_value acc (be_bytes n v) = acc * 256 ^ Z.of_nat n + v mod 256 ^ Z.of_nat n.
Proof.
  revert acc; induction n as [|n IH]; intros acc.
  - simpl. rewrite Z.mod_1_r. lia.
  - cbn [be_bytes be_value]. rewrite IH.
    rewrite Nat2Z.inj_succ, Z.pow_succ_r by lia.
    pose proof (pow256_pos n) as Hp.
    rewrite (Z.mul_comm 256 (256 ^ Z.of_nat n)).
    rewrite (Z.rem_mul_r v (256 ^ Z.of_nat n) 256) by lia.
    ring.
Qed.

(** Decoding the [n]-byte big-endian encoding gives the value back. *)
Lemma be_bytes_decodes (n : nat) (v : Z) :
  0 <= v < 256 ^ Z.of_nat n -> be_value 0 (be_bytes n v) = v.
Proof.
  intros Hv. rewrite be_value_be_bytes, Z.mod_small; lia.
Qed.

Lemma be_bytes_in_range (n : nat) (v b : Z) :
  In b (be_bytes n v) -> 0 <= b < 256.
Proof.
  induction n as [|n IH]; simpl; [contradiction|].
  intros [<-|H]; [apply Z.mod_pos_bound; lia|auto].
Qed.

(** ** The hash wrappers *)

Section Wrappers.
Context {native : Native}.

Lemma opaque_hash_range (buf : bytes) : 0 <= opaque_hash buf < 2 ^ 64.
Proof. apply c_uint64_range. Qed.

Lemma calcHash_run (buf : bytes) (log : list call) :
  calcHash buf log = (Ok (opaque_hash buf), log ++ [call_on buf]).
Proof.
  unfold calcHash, bind, nhash_compute_hash, ret, opaque_hash, call_on.
  rewrite c_uint64_small by apply c_uint64_range. reflexivity.
Qed.

Lemma pack_be_I_ok (seed : Z) :
  0 <= seed < 2 ^ 32 -> pack_be_I seed = Ok (be_bytes 4 seed).
Proof.
  intros H. unfold pack_be_I.
  replace (0 <=? seed) with true by (symmetry; apply Z.leb_le; lia).
  replace (seed <? 2 ^ 32) with true by (symmetry; apply Z.ltb_lt; lia).
  reflexivity.
Qed.

Lemma pack_be_Q_ok (seed : Z) :
  0 <= seed < 2 ^ 64 -> pack_be_Q seed = Ok (be_bytes 8 seed).
Proof.
  intros H. unfold pack_be_Q.
  replace (0 <=? seed) with true by (symmetry; apply Z.leb_le; lia).
  replace (seed <? 2 ^ 64) with true by (symmetry; apply Z.ltb_lt; lia).
  reflexivity.
Qed.

Lemma hash64salt32_run (buf : bytes) (seed : Z) (log : list call) :
  0 <= seed < 2 ^ 32 ->
  hash64salt32 buf seed log
  = (Ok (salted_hash seed buf), log ++ [call_on (be_bytes 4 seed ++ buf)]).
Proof.
  intros H. unfold hash64salt32, bind, lift.
  rewrite pack_be_I_ok by exact H. apply calcHash_run.
Qed.

Lemma hash64salt64_run (buf : bytes) (seed : Z) (log : list call) :
  0 <= seed < 2 ^ 64 ->
  hash64salt64 buf seed log
  = (Ok (salted_hash64 seed buf), log ++ [call_on (be_bytes 8 seed ++ buf)]).
Proof.
  intros H. unfold hash64salt64, bind, lift.
  rewrite pack_be_Q_ok by exact H. apply calcHash_run.
Qed.

Lemma hash32_run (buf : bytes) (seed : Z) (log : list call) :
  0 <= seed < 2 ^ 32 ->
  hash32 buf seed log
  = (Ok (fold_to_uint32 (salted_hash seed buf)),
     log ++ [call_on (be_bytes 4 seed ++ buf)]).
Proof.
  intros H. unfold hash32, bind, lift.
  rewrite pack_be_I_ok by exact H. rewrite calcHash_run.
  unfold ret. rewrite signed_fold by apply opaque_hash_range. reflexivity.
Qed.

(** A seed that does not fit 32 bits makes [struct.pack] raise before
    anything is hashed. *)
Lemma hash32_bad_seed (buf : bytes) (seed : Z) (log : list call) :
  ~ 0 <= seed < 2 ^ 32 -> hash32 buf seed log = (Raise struct_error, log).
Proof.
  intros H. unfold hash32, bind, lift, pack_be_I.
  destruct (Z.leb_spec 0 seed), (Z.ltb_spec seed (2 ^ 32));
    try reflexivity; lia.
Qed.

Lemma HASH_SEED_range : 0 <= HASH_SEED < 2 ^ 32.
Proof. unfold HASH_SEED. lia. Qed.

Lemma generate_location_hash_run
    (lat lng : float64) (acc : option float64) (log : list call) :
  generate_location_hash lat lng acc log
  = (Ok (location_pipeline HASH_SEED lat lng (acc_or_default acc)),
     log ++ [call_on (be_bytes 4 HASH_SEED
                        ++ location_payload lat lng (acc_or_default acc))]).
Proof.
  unfold generate_location_hash, bind, lift.
  rewrite !d2h_minimal.
  rewrite hash32_run by apply HASH_SEED_range.
  unfold ret, location_pipeline, location_payload.
  rewrite c_int32_reinterpret by apply fold_to_uint32_range. reflexivity.
Qed.

Lemma generate_location_hash_by_seed_run
    (authticket : bytes) (lat lng : float64) (acc : option float64)
    (log : list call) :
  let stage1_seed := fold_to_uint32 (salted_hash HASH_SEED authticket) in
  generate_location_hash_by_seed authticket lat lng acc log
  = (Ok (location_pipeline stage1_seed lat lng (acc_or_default acc)),
     log ++ [call_on (be_bytes 4 HASH_SEED ++ authticket);
             call_on (be_bytes 4 stage1_seed
                        ++ location_payload lat lng (acc_or_default acc))]).
Proof.
  intros stage1_seed.
  unfold generate_location_hash_by_seed, bind, lift.
  rewrite hash32_run by apply HASH_SEED_range.
  rewrite !d2h_minimal.
  fold stage1_seed.
  rewrite hash32_run by apply fold_to_uint32_range.
  unfold ret, location_pipeline, location_payload.
  rewrite c_int32_reinterpret by apply fold_to_uint32_range.
  rewrite <- (app_assoc log). reflexivity.
Qed.

Lemma generate_request_hash_run
    (authticket request : bytes) (log : list call) :
  let stage1 := salted_hash HASH_SEED authticket in
  generate_request_hash authticket request log
  = (Ok (reinterpret_as_int64 (salted_hash64 stage1 request)),
     log ++ [call_on (be_bytes 4 HASH_SEED ++ authticket);
             call_on (be_bytes 8 stage1 ++ request)]).
Proof.
  intros stage1. unfold generate_request_hash, bind.
  rewrite hash64salt32_run by apply HASH_SEED_range.
  fold stage1.
  rewrite hash64salt64_run by apply opaque_hash_range.
  unfold ret. rewrite c_int64_reinterpret by apply opaque_hash_range.
  rewrite <- (app_assoc log). reflexivity.
Qed.

End Wrappers.

(** The location hash depends on the native library through
    [compute_hash] only. *)
Lemma location_hash_native_ext
    (n1 n2 : Native) (lat lng : float64) (acc : option float64)
    (log : list call) :
  (forall b k, @compute_hash n1 b k = @compute_hash n2 b k) ->
  fst (@generate_location_hash n1 lat lng acc log)
  = fst (@generate_location_hash n2 lat lng acc log).
Proof.
  intros H. rewrite !generate_location_hash_run. cbn [fst].
  unfold location_pipeline, salted_hash, opaque_hash. now rewrite H.
Qed.

(** ** [long_to_bytes] *)

Lemma format_0x_nonneg (n : nat) (v : Z) :
  0 <= v -> (hex_len v <= n)%nat ->
  format_0x (Z.of_nat n) v = hex_fixed n v.
Proof.
  intros Hv Hn. unfold format_0x, minus_sign.
  replace (v <? 0) with false by (symmetry; apply Z.ltb_ge; lia).
  rewrite Z.abs_eq by lia. cbn [app length]. unfold hex_digits.
  rewrite length_hex_fixed, Nat2Z.id, Nat.sub_0_r.
  rewrite <- hex_fixed_pad by (split; [lia|apply hex_len_bound; lia]).
  f_equal. lia.
Qed.

Lemma long_to_bytes_width (val : Z) :
  0 < val ->
  let width := bit_length val in
  (width + (8 - (if width mod 8 =? 0 then 8 else width mod 8))) / 4
  = Z.of_nat (2 * byte_len val).
Proof.
  intros Hpos. cbv zeta. unfold bit_length, byte_len.
  destruct (Z.eqb_spec val 0) as [|_]; [lia|].
  rewrite Z.abs_eq by lia.
  pose proof (Z.log2_nonneg val) as Hl.
  set (L := Z.log2 val) in *.
  assert (Hq : 0 <= L / 8) by (apply Z.div_pos; lia).
  replace (Z.of_nat (2 * S (Z.to_nat (L / 8)))) with (2 * (L / 8 + 1)) by lia.
  destruct (Z.eqb_spec ((L + 1) mod 8) 0) as [E|E];
    Z.div_mod_to_equations; lia.
Qed.

Lemma long_to_bytes_positive (val : Z) (endianness : str) :
  0 < val ->
  long_to_bytes val endianness
  = Ok (if list_eq_dec ascii_dec endianness (lit "little")
        then rev (minimal_be_bytes val) else minimal_be_bytes val).
Proof.
  intros Hpos. unfold long_to_bytes.
  rewrite (long_to_bytes_width val Hpos).
  rewrite format_0x_nonneg.
  - rewrite unhexlify_hex_fixed. cbn [rbind]. fold (minimal_be_bytes val).
    now destruct (list_eq_dec ascii_dec endianness _).
  - lia.
  - pose proof (hex_len_byte_len val ltac:(lia)). lia.
Qed.

Lemma long_to_bytes_zero (endianness : str) :
  long_to_bytes 0 endianness = Raise Odd_length_string.
Proof. reflexivity. Qed.

(** * The claims *)

(** C1 (the code departs from it).  The claim: for every float64 value,
    0.0 included, [d2h] returns exactly 8 bytes, the big-endian bytes of the
    raw bit pattern with no leading-zero trimming.  On 0.0 the code returns
    the single byte 0x00, and on 2^-1008 it returns 7 bytes, where the
    fixed-width encoding has 8. *)
Theorem C1_d2h_trims_leading_zero_bytes :
  forall native : Native,
    d2h f_zero = Ok [0]
    /\ float_to_big_endian_bytes f_zero = [0; 0; 0; 0; 0; 0; 0; 0]
    /\ d2h f_tiny = Ok [0xF0; 0; 0; 0; 0; 0; 0]
    /\ float_to_big_endian_bytes f_tiny = [0; 0xF0; 0; 0; 0; 0; 0; 0].
Proof.
  intros native. rewrite !d2h_minimal. repeat split; reflexivity.
Qed.

(** C2.  For every unsigned 64-bit value [h] answered by the native
    function, [hash32] returns
    [((h >> 32) & 0xFFFFFFFF) XOR (h & 0xFFFFFFFF)], computed on the unsigned
    pattern, although the code goes through the signed 64-bit value and an
    arithmetic shift; when the native function answers 0x0000000100000002
    the fold is 3. *)
Theorem C2_hash32_folds_unsigned_pattern :
  forall (native : Native) (buf : bytes) (seed : Z) (log : list call) (h : Z),
    0 <= seed < 2 ^ 32 ->
    opaque_hash (be_bytes 4 seed ++ buf) = h ->
    fst (hash32 buf seed log)
    = Ok (Z.lxor (Z.land (Z.shiftr h 32) 0xFFFFFFFF) (Z.land h 0xFFFFFFFF))
    /\ (h = 0x0000000100000002 -> fst (hash32 buf seed log) = Ok 3).
Proof.
  intros native buf seed log h Hseed Hh.
  rewrite hash32_run by exact Hseed. cbn [fst].
  unfold salted_hash. rewrite Hh. split; [reflexivity|].
  intros ->. reflexivity.
Qed.

Lemma C2_hash32_folds_unsigned_pattern_witness :
  0 <= HASH_SEED < 2 ^ 32
  /\ @opaque_hash (constant_stub 0x0000000100000002)
       (be_bytes 4 HASH_SEED ++ [1; 2; 3]) = 0x0000000100000002
  /\ fst (@hash32 (constant_stub 0x0000000100000002) [1; 2; 3] HASH_SEED [])
     = Ok 3.
Proof.
  assert (Hseed : 0 <= HASH_SEED < 2 ^ 32) by (unfold HASH_SEED; lia).
  split; [exact Hseed|]. split; [reflexivity|].
  exact (proj2 (@C2_hash32_folds_unsigned_pattern
                  (constant_stub 0x0000000100000002) [1; 2; 3] HASH_SEED []
                  0x0000000100000002 Hseed eq_refl) eq_refl).
Defined.

(** C3.  For every seed that fits the wrapper's width and every payload,
    the one buffer handed to the native function is the big-endian encoding
    of the seed (4 bytes for [hash64salt32] and [hash32], 8 bytes for
    [hash64salt64]) followed by the payload: the seed comes first, and its
    bytes decode, most significant first, to the seed. *)
Theorem C3_buffer_is_seed_then_payload :
  forall (native : Native) (buf : bytes) (seed : Z) (log : list call),
    (0 <= seed < 2 ^ 32 ->
       snd (hash64salt32 buf seed log)
         = log ++ [call_on (be_bytes 4 seed ++ buf)]
       /\ snd (hash32 buf seed log)
         = log ++ [call_on (be_bytes 4 seed ++ buf)]
       /\ be_value 0 (be_bytes 4 seed) = seed)
    /\ (0 <= seed < 2 ^ 64 ->
       snd (hash64salt64 buf seed log)
         = log ++ [call_on (be_bytes 8 seed ++ buf)]
       /\ be_value 0 (be_bytes 8 seed) = seed).
Proof.
  intros native buf seed log. split; intros Hseed.
  - rewrite hash64salt32_run, hash32_run by exact Hseed.
    repeat split. apply be_bytes_decodes. exact Hseed.
  - rewrite hash64salt64_run by exact Hseed.
    split; [reflexivity|]. apply be_bytes_decodes. exact Hseed.
Qed.

Lemma C3_buffer_is_seed_then_payload_witness :
  (0 <= HASH_SEED < 2 ^ 32
   /\ snd (@hash64salt32 number_stub [7; 8] HASH_SEED [])
      = [([0x61; 0x24; 0x7F; 0xBF; 7; 8], 6)])
  /\ (0 <= 0x0102030405060708 < 2 ^ 64
      /\ snd (@hash64salt64 number_stub [7; 8] 0x0102030405060708 [])
         = [([1; 2; 3; 4; 5; 6; 7; 8; 7; 8], 10)]).
Proof.
  assert (H1 : 0 <= HASH_SEED < 2 ^ 32) by (unfold HASH_SEED; lia).
  assert (H2 : 0 <= 0x0102030405060708 < 2 ^ 64) by lia.
  destruct (@C3_buffer_is_seed_then_payload number_stub [7; 8] HASH_SEED [])
    as [H32 _].
  destruct (@C3_buffer_is_seed_then_payload number_stub [7; 8]
              0x0102030405060708 []) as [_ H64].
  split; (split; [assumption|]).
  - exact (proj1 (H32 H1)).
  - exact (proj1 (H64 H2)).
Defined.

(** C4.  For every auth ticket and coordinates,
    [generate_location_hash_by_seed] seeds the coordinate stage with the
    folded unsigned 32-bit value of the ticket stage,
    [fold_to_uint32 (salted_hash HASH_SEED authticket)], and then computes
    the pipeline of [generate_location_hash] with that seed in place of
    [HASH_SEED].  The seed is the unsigned intermediate, not its signed
    int32 reading: when the two differ, packing the signed one would
    raise. *)
Theorem C4_ticket_stage_seeds_coordinate_stage :
  forall (native : Native) (authticket : bytes) (lat lng : float64)
         (acc : option float64) (log : list call),
    let stage1_seed := fold_to_uint32 (salted_hash HASH_SEED authticket) in
    let payload := location_payload lat lng (acc_or_default acc) in
    generate_location_hash_by_seed authticket lat lng acc log
      = (Ok (location_pipeline stage1_seed lat lng (acc_or_default acc)),
         log ++ [call_on (be_bytes 4 HASH_SEED ++ authticket);
                 call_on (be_bytes 4 stage1_seed ++ payload)])
    /\ generate_location_hash lat lng acc log
      = (Ok (location_pipeline HASH_SEED lat lng (acc_or_default acc)),
         log ++ [call_on (be_bytes 4 HASH_SEED ++ payload)])
    /\ 0 <= stage1_seed < 2 ^ 32
    /\ be_value 0 (be_bytes 4 stage1_seed) = stage1_seed
    /\ (2 ^ 31 <= stage1_seed ->
        c_int32 stage1_seed < 0
        /\ fst (hash32 payload (c_int32 stage1_seed) log) = Raise struct_error).
Proof.
  intros native authticket lat lng acc log stage1_seed payload.
  pose proof (fold_to_uint32_range (salted_hash HASH_SEED authticket)) as Hr.
  fold stage1_seed in Hr.
  split; [apply generate_location_hash_by_seed_run|].
  split; [apply generate_location_hash_run|].
  split; [exact Hr|].
  split; [apply be_bytes_decodes; exact Hr|].
  intros Hge.
  assert (Hneg : c_int32 stage1_seed < 0).
  { rewrite c_int32_reinterpret by exact Hr. unfold reinterpret_as_int32.
    destruct (Z.ltb_spec stage1_seed (2 ^ 31)); lia. }
  split; [exact Hneg|].
  rewrite hash32_bad_seed by lia. reflexivity.
Qed.

Lemma C4_ticket_stage_seeds_coordinate_stage_witness :
  2 ^ 31 <= fold_to_uint32
              (@salted_hash (constant_stub 0x8000000000000000) HASH_SEED [9])
  /\ fst (@generate_location_hash_by_seed (constant_stub 0x8000000000000000)
            [9] f_one f_two None [])
     = Ok (-2147483648)
  /\ c_int32 0x80000000 < 0.
Proof.
  pose proof (@C4_ticket_stage_seeds_coordinate_stage
                (constant_stub 0x8000000000000000) [9] f_one f_two None [])
    as (Hrun & _ & _ & _ & Hsigned).
  split; [vm_compute; discriminate|].
  split.
  - rewrite Hrun. reflexivity.
  - exact (proj1 (Hsigned ltac:(vm_compute; discriminate))).
Defined.

(** C5.  For every auth ticket and request buffer, [generate_request_hash]
    returns the signed 64-bit reading of
    [salted_hash64 stage1 request], where [stage1] is the whole unsigned
    64-bit value [salted_hash HASH_SEED authticket]: it is packed on 8
    bytes, not folded to 32 bits. *)
Theorem C5_request_hash_chains_full_64_bits :
  forall (native : Native) (authticket request : bytes) (log : list call),
    let stage1 := salted_hash HASH_SEED authticket in
    generate_request_hash authticket request log
      = (Ok (reinterpret_as_int64 (salted_hash64 stage1 request)),
         log ++ [call_on (be_bytes 4 HASH_SEED ++ authticket);
                 call_on (be_bytes 8 stage1 ++ request)])
    /\ 0 <= stage1 < 2 ^ 64
    /\ be_value 0 (be_bytes 8 stage1) = stage1
    /\ reinterpret_as_int64 (salted_hash64 stage1 request)
       = c_int64 (salted_hash64 stage1 request).
Proof.
  intros native authticket request log stage1.
  pose proof (opaque_hash_range (be_bytes 4 HASH_SEED ++ authticket)) as Hr.
  split; [apply generate_request_hash_run|].
  split; [exact Hr|].
  split; [apply be_bytes_decodes; exact Hr|].
  symmetry. apply c_int64_reinterpret, opaque_hash_range.
Qed.




(** C7.  The signed readings are exact two's-complement reinterpretations:
    as int32, 0x80000000 is -2147483648 and 0x7FFFFFFF is 2147483647; every
    unsigned 32-bit [v] reads as [v] below 2^31 and as [v - 2^32] from 2^31
    on; likewise for 64 bits.  The hash functions return these readings:
    both location hashes return the int32 reading of the folded hash of the
    coordinate stage and the request hash the int64 reading of the hash of
    the request stage, so a fold of 0x80000000 comes back as -2147483648
    and one of 0x7FFFFFFF as 2147483647. *)
Theorem C7_signed_reinterpretation :
  c_int32 0x80000000 = -2147483648
  /\ c_int32 0x7FFFFFFF = 2147483647
  /\ (forall v, 0 <= v < 2 ^ 32 ->
        c_int32 v = if v <? 2 ^ 31 then v else v - 2 ^ 32)
  /\ (forall v, 0 <= v < 2 ^ 64 ->
        c_int64 v = if v <? 2 ^ 63 then v else v - 2 ^ 64)
  /\ (forall (native : Native) (authticket request : bytes)
             (lat lng : float64) (acc : option float64) (log : list call),
        let payload := location_payload lat lng (acc_or_default acc) in
        let v1 := fold_to_uint32 (salted_hash HASH_SEED payload) in
        let seed := fold_to_uint32 (salted_hash HASH_SEED authticket) in
        let v2 := fold_to_uint32 (salted_hash seed payload) in
        let h := salted_hash64 (salted_hash HASH_SEED authticket) request in
        (0 <= v1 < 2 ^ 32 /\ 0 <= v2 < 2 ^ 32 /\ 0 <= h < 2 ^ 64)
        /\ fst (generate_location_hash lat lng acc log)
           = Ok (if v1 <? 2 ^ 31 then v1 else v1 - 2 ^ 32)
        /\ fst (generate_location_hash_by_seed authticket lat lng acc log)
           = Ok (if v2 <? 2 ^ 31 then v2 else v2 - 2 ^ 32)
        /\ fst (generate_request_hash authticket request log)
           = Ok (if h <? 2 ^ 63 then h else h - 2 ^ 64))
  /\ (forall (authticket request : bytes) (lat lng : float64)
             (acc : option float64) (log : list call),
        fst (@generate_location_hash (constant_stub 0x0000000080000000)
               lat lng acc log) = Ok (-2147483648)
        /\ fst (@generate_location_hash (constant_stub 0x000000007FFFFFFF)
               lat lng acc log) = Ok 2147483647
        /\ fst (@generate_location_hash_by_seed
                  (constant_stub 0x0000000080000000)
                  authticket lat lng acc log) = Ok (-2147483648)
        /\ fst (@generate_location_hash_by_seed
                  (constant_stub 0x000000007FFFFFFF)
                  authticket lat lng acc log) = Ok 2147483647
        /\ fst (@generate_request_hash (constant_stub 0x8000000000000000)
                  authticket request log) = Ok (-9223372036854775808)
        /\ fst (@generate_request_hash (constant_stub 0x7FFFFFFFFFFFFFFF)
                  authticket request log) = Ok 9223372036854775807).
Proof.
  split; [reflexivity|]. split; [reflexivity|].
  split; [intros v Hv; apply c_int32_reinterpret, Hv|].
  split; [intros v Hv; apply c_int64_reinterpret, Hv|].
  split.
  - intros native authticket request lat lng acc log payload v1 seed v2 h.
    split.
    { split; [apply fold_to_uint32_range|].
      split; [apply fold_to_uint32_range|apply opaque_hash_range]. }
    rewrite generate_location_hash_run, generate_location_hash_by_seed_run,
            generate_request_hash_run.
    repeat split.
  - intros authticket request lat lng acc log.
    rewrite !generate_location_hash_run, !generate_location_hash_by_seed_run,
            !generate_request_hash_run.
    repeat split.
Qed.

Lemma C7_signed_reinterpretation_witness :
  (0 <= 0xFFFFFFFF < 2 ^ 32 /\ c_int32 0xFFFFFFFF = -1)
  /\ (0 <= 0xFFFFFFFFFFFFFFFE < 2 ^ 64 /\ c_int64 0xFFFFFFFFFFFFFFFE = -2)
  /\ fst (@generate_location_hash_by_seed (constant_stub 0x00000000FFFFFFFF)
            [9] f_one f_two None []) = Ok (-1)
  /\ fst (@generate_request_hash (constant_stub 0xFFFFFFFFFFFFFFFE)
            [9] [1; 2] []) = Ok (-2).
Proof.
  destruct C7_signed_reinterpretation as (_ & _ & H32 & H64 & Hcode & _).
  destruct (@Hcode (constant_stub 0x00000000FFFFFFFF) [9] [1; 2]
              f_one f_two None []) as (_ & _ & Hloc & _).
  destruct (@Hcode (constant_stub 0xFFFFFFFFFFFFFFFE) [9] [1; 2]
              f_one f_two None []) as (_ & _ & _ & Hreq).
  split; [split; [lia|exact (H32 0xFFFFFFFF ltac:(lia))]|].
  split; [split; [lia|exact (H64 0xFFFFFFFFFFFFFFFE ltac:(lia))]|].
  split; [exact Hloc|exact Hreq].
Defined.

(** C8.  Determinism: with the native function a fixed function of its
    arguments, [generate_location_hash] returns the same value whatever
    happened before the call, two calls in a row with the same arguments
    return the same value, and the value does not depend on how the
    interpreter renders long integers. *)
Theorem C8_location_hash_is_deterministic :
  forall (native : Native) (lat lng : float64) (acc : option float64)
         (log log' : list call),
    fst (generate_location_hash lat lng acc log)
      = fst (generate_location_hash lat lng acc log')
    /\ fst ((r1 <- generate_location_hash lat lng acc ;;
             r2 <- generate_location_hash lat lng acc ;;
             ret (r1 =? r2)) log) = Ok true
    /\ (forall suffix : Z -> bool,
          fst (@generate_location_hash
                 {| compute_hash := compute_hash; hex_long_suffix := suffix |}
                 lat lng acc log)
          = fst (generate_location_hash lat lng acc log)).
Proof.
  intros native lat lng acc log log'. split; [|split].
  - now rewrite !generate_location_hash_run.
  - unfold bind. rewrite !generate_location_hash_run.
    unfold ret. cbn [fst]. now rewrite Z.eqb_refl.
  - intros suffix. now rewrite !generate_location_hash_run.
Qed.



(** C10.  [long_to_bytes] raises on 0: the width computed is 0, the
    formatted string is the single digit "0", and [unhexlify] rejects it as
    odd-length.  For every [val > 0] it returns the big-endian bytes of
    [val] on the smallest whole number of bytes. *)
Theorem C10_long_to_bytes :
  (forall endianness, long_to_bytes 0 endianness = Raise Odd_length_string)
  /\ format_0x 0 0 = ["0"%char]
  /\ (forall val, 0 < val ->
        long_to_bytes val (lit "big")
          = Ok (be_bytes (byte_len val) val)
        /\ be_value 0 (be_bytes (byte_len val) val) = val
        /\ 256 ^ Z.of_nat (Nat.pred (byte_len val)) <= val
             < 256 ^ Z.of_nat (byte_len val)).
Proof.
  split; [exact long_to_bytes_zero|]. split; [reflexivity|].
  intros val Hpos.
  pose proof (byte_len_bound val ltac:(lia)) as Hub.
  split; [|split].
  - rewrite long_to_bytes_positive by exact Hpos. reflexivity.
  - apply be_bytes_decodes. lia.
  - split; [apply byte_len_minimal; exact Hpos|exact Hub].
Qed.

Lemma C10_long_to_bytes_witness :
  0 < 0x12345
  /\ long_to_bytes 0x12345 (lit "big") = Ok [0x01; 0x23; 0x45].
Proof.
  split; [lia|].
  exact (proj1 (proj2 (proj2 C10_long_to_bytes) 0x12345 ltac:(lia))).
Defined.

(** * Further properties of the module *)

(** ** Helpers *)

Lemma float64_eq (x y : float64) : raw_bits x = raw_bits y -> x = y.
Proof.
  destruct x as [u Hu], y as [v Hv]. cbn [raw_bits]. intros ->.
  f_equal. apply UIP_dec, bool_dec.
Qed.

Lemma be_bytes_forall_range (n : nat) (v : Z) :
  Forall (fun y => 0 <= y < 256) (be_bytes n v).
Proof. apply Forall_forall. intros y. apply be_bytes_in_range. Qed.

Lemma byte_len_positive (v : Z) : (1 <= byte_len v)%nat.
Proof. unfold byte_len. destruct (v =? 0); lia. Qed.

Lemma byte_len_at_most_8 (v : Z) : 0 <= v < 2 ^ 64 -> (byte_len v <= 8)%nat.
Proof.
  intros Hv. unfold byte_len. destruct (Z.eqb_spec v 0) as [|Hne]; [lia|].
  assert (Z.log2 v < 64) by (apply Z.log2_lt_pow2; lia).
  pose proof (Z.log2_nonneg v).
  assert (0 <= Z.log2 v / 8 <= 7) by (Z.div_mod_to_equations; lia).
  lia.
Qed.

(** The first byte of the minimal encoding of a positive number is not
    zero. *)
Lemma minimal_be_bytes_head (v : Z) :
  0 < v ->
  exists b0 rest,
    minimal_be_bytes v = b0 :: rest /\ 1 <= b0 < 256
    /\ length rest = Nat.pred (byte_len v).
Proof.
  intros Hpos. unfold minimal_be_bytes.
  pose proof (byte_len_positive v) as Hn.
  pose proof (byte_len_minimal v Hpos) as Hlo.
  pose proof (byte_len_bound v ltac:(lia)) as Hhi.
  destruct (byte_len v) as [|k]; [lia|]. cbn [Nat.pred] in *.
  rewrite Nat2Z.inj_succ, Z.pow_succ_r in Hhi by lia.
  pose proof (pow256_pos k) as Hp.
  assert (Hd : 1 <= v / 256 ^ Z.of_nat k < 256).
  { split; [apply Z.div_le_lower_bound; lia|apply Z.div_lt_upper_bound; lia]. }
  exists (v / 256 ^ Z.of_nat k), (be_bytes k v).
  cbn [be_bytes]. rewrite Z.mod_small by lia.
  split; [reflexivity|]. split; [exact Hd|apply length_be_bytes].
Qed.

Lemma app_inv_same_length {A} (a a' r r' : list A) :
  length a = length a' -> a ++ r = a' ++ r' -> a = a' /\ r = r'.
Proof.
  revert a'. induction a as [|x a IH]; intros [|x' a'] Hl H;
    try discriminate Hl.
  - split; [reflexivity|exact H].
  - cbn [app] in H. injection H as -> H. injection Hl as Hl.
    destruct (IH a' Hl H) as [-> ->]. split; reflexivity.
Qed.

Lemma be_bytes_8_injective (u v : Z) :
  0 <= u < 2 ^ 64 -> 0 <= v < 2 ^ 64 -> be_bytes 8 u = be_bytes 8 v -> u = v.
Proof.
  intros Hu Hv H. apply (f_equal (be_value 0)) in H.
  now rewrite !be_bytes_decodes in H by (change (256 ^ Z.of_nat 8) with (2 ^ 64); lia).
Qed.

Lemma minimal_be_bytes_eight (x : float64) :
  2 ^ 56 <= raw_bits x -> minimal_be_bytes (raw_bits x) = be_bytes 8 (raw_bits x).
Proof.
  intros H. unfold minimal_be_bytes.
  now rewrite (proj2 (byte_len_eight _ (raw_bits_bounds x)) H).
Qed.

(** ** The float encoder, continued *)

(** X1.  [d2h] never raises.  Its result is the big-endian number of the
    bit pattern: between 1 and 8 bytes, each in [0, 256), which read back,
    most significant first, as the pattern; the first byte is zero only for
    the pattern zero, whose encoding is the single byte 0. *)
Theorem X1_d2h_reads_back_as_bit_pattern :
  forall (native : Native) (x : float64),
    exists b : bytes,
      d2h x = Ok b
      /\ be_value 0 b = raw_bits x
      /\ (1 <= length b <= 8)%nat
      /\ Forall (fun y => 0 <= y < 256) b
      /\ (hd 0 b = 0 <-> raw_bits x = 0)
      /\ (raw_bits x = 0 -> b = [0]).
Proof.
  intros native x. pose proof (raw_bits_bounds x) as Hb.
  exists (minimal_be_bytes (raw_bits x)).
  split; [apply d2h_minimal|].
  split; [apply be_bytes_decodes; split; [lia|apply byte_len_bound; lia]|].
  assert (Hlen : length (minimal_be_bytes (raw_bits x)) = byte_len (raw_bits x))
    by apply length_be_bytes.
  rewrite Hlen.
  split; [split; [apply byte_len_positive|apply byte_len_at_most_8, Hb]|].
  split; [apply be_bytes_forall_range|].
  split.
  - destruct (Z.eq_dec (raw_bits x) 0) as [E|E].
    + rewrite E. split; reflexivity.
    + destruct (minimal_be_bytes_head (raw_bits x) ltac:(lia))
        as (b0 & rest & -> & Hb0 & _).
      cbn [hd]. lia.
  - intros ->. reflexivity.
Qed.

Lemma X1_d2h_reads_back_as_bit_pattern_witness :
  raw_bits f_zero = 0 /\ @d2h number_stub f_zero = Ok [0].
Proof.
  destruct (@X1_d2h_reads_back_as_bit_pattern number_stub f_zero)
    as (b & Hd & _ & _ & _ & _ & Hz).
  split; [reflexivity|]. rewrite Hd. f_equal. exact (Hz eq_refl).
Defined.

(** X2.  [d2h] returns the 8 bytes of the fixed-width big-endian encoding
    exactly for the negative values (sign bit set) and for the values whose
    biased exponent is 16 or more; for every other value it returns fewer
    than 8 bytes. *)
Theorem X2_d2h_eight_bytes_iff :
  forall (native : Native) (x : float64),
    (d2h x = Ok (be_bytes 8 (raw_bits x))
       <-> sign_bit x = true \/ 16 <= biased_exponent x)
    /\ ((exists b, d2h x = Ok b /\ (length b < 8)%nat)
       <-> sign_bit x = false /\ biased_exponent x < 16).
Proof.
  intros native x. split.
  - rewrite <- top_byte_nonzero_iff. apply d2h_fixed_width_iff.
  - split.
    + intros (b & Hd & Hl).
      destruct (sign_bit x) eqn:Hs.
      * rewrite (d2h_negative x Hs) in Hd. injection Hd as <-.
        unfold float_to_big_endian_bytes in Hl.
        rewrite length_be_bytes in Hl. lia.
      * split; [reflexivity|].
        destruct (Z.lt_ge_cases (biased_exponent x) 16) as [|Hge]; [assumption|].
        assert (Ht : 2 ^ 56 <= raw_bits x)
          by (apply top_byte_nonzero_iff; right; lia).
        apply d2h_fixed_width_iff in Ht. rewrite Ht in Hd. injection Hd as <-.
        unfold float_to_big_endian_bytes in Hl.
        rewrite length_be_bytes in Hl. lia.
    + intros [Hs He]. apply d2h_short; assumption.
Qed.

(** X3.  For coordinates whose bit patterns have a nonzero top byte (every
    negative value and every value of magnitude at least 2^-1007), the
    buffer that [generate_location_hash] hands to the native function
    determines the three values: equal buffers come from equal latitude,
    longitude and accuracy. *)
Theorem X3_location_buffer_determines_coordinates :
  forall (native : Native) (lat lng acc lat' lng' acc' : float64)
         (log : list call),
    2 ^ 56 <= raw_bits lat -> 2 ^ 56 <= raw_bits lng ->
    2 ^ 56 <= raw_bits acc ->
    2 ^ 56 <= raw_bits lat' -> 2 ^ 56 <= raw_bits lng' ->
    2 ^ 56 <= raw_bits acc' ->
    snd (generate_location_hash lat lng (Some acc) log)
      = snd (generate_location_hash lat' lng' (Some acc') log) ->
    lat = lat' /\ lng = lng' /\ acc = acc'.
Proof.
  intros native lat lng acc lat' lng' acc' log H1 H2 H3 H1' H2' H3' H.
  rewrite !generate_location_hash_run in H. cbn [snd acc_or_default] in H.
  apply app_inv_head in H. injection H as H _.
  unfold location_payload in H.
  rewrite !minimal_be_bytes_eight in H by assumption.
  rewrite <- !app_assoc in H.
  apply app_inv_same_length in H; [|now rewrite !length_be_bytes].
  destruct H as [Ha H].
  apply app_inv_same_length in H; [|now rewrite !length_be_bytes].
  destruct H as [Hb Hc].
  repeat split; apply float64_eq;
    apply be_bytes_8_injective; try apply raw_bits_bounds; assumption.
Qed.

Lemma X3_location_buffer_determines_coordinates_witness :
  2 ^ 56 <= raw_bits f_one /\ 2 ^ 56 <= raw_bits f_neg_one
  /\ 2 ^ 56 <= raw_bits f_five
  /\ (f_one = f_one /\ f_neg_one = f_neg_one /\ f_five = f_five).
Proof.
  assert (H1 : 2 ^ 56 <= raw_bits f_one) by (vm_compute; discriminate).
  assert (H2 : 2 ^ 56 <= raw_bits f_neg_one) by (vm_compute; discriminate).
  assert (H3 : 2 ^ 56 <= raw_bits f_five) by (vm_compute; discriminate).
  repeat (split; [assumption|]).
  exact (@X3_location_buffer_determines_coordinates number_stub
           f_one f_neg_one f_five f_one f_neg_one f_five []
           H1 H2 H3 H1 H2 H3 eq_refl).
Defined.

(** X4.  Without that restriction the buffer does not determine the
    coordinates: there are two pairs of latitude and longitude with
    different bit patterns for which [generate_location_hash] hands the same
    buffer to the native function and returns the same hash, whatever the
    native function is. *)
Theorem X4_location_hash_confuses_tiny_coordinates :
  exists lat lng lat' lng' acc : float64,
    raw_bits lat <> raw_bits lat' /\ raw_bits lng <> raw_bits lng'
    /\ forall (native : Native) (log : list call),
         generate_location_hash lat lng (Some acc) log
         = generate_location_hash lat' lng' (Some acc) log.
Proof.
  exists (float_of_bits 0x01 eq_refl), (float_of_bits 0x0200 eq_refl),
         (float_of_bits 0x0102 eq_refl), (float_of_bits 0x00 eq_refl), f_five.
  split; [cbn; lia|]. split; [cbn; lia|].
  intros native log. rewrite !generate_location_hash_run. reflexivity.
Qed.

(** ** [long_to_bytes], continued *)

Lemma le_value_decodes (n : nat) (v : Z) :
  0 <= v < 256 ^ Z.of_nat n -> le_value (le_bytes n v) = v.
Proof. intros Hv. rewrite le_value_le_bytes. apply Z.mod_small, Hv. Qed.

Lemma format_0x_negative (w val : Z) :
  val < 0 -> exists rest, format_0x w val = "-"%char :: rest.
Proof.
  intros H. unfold format_0x, minus_sign.
  replace (val <? 0) with true by (symmetry; apply Z.ltb_lt; lia).
  eexists. reflexivity.
Qed.

Lemma unhexlify_minus (rest : str) :
  exists e, unhexlify ("-"%char :: rest) = Raise e.
Proof.
  unfold unhexlify.
  destruct (Nat.odd (length ("-"%char :: rest))) eqn:Ho; [eexists; reflexivity|].
  destruct rest as [|c rest]; [discriminate Ho|].
  cbn [unhexlify_pairs]. eexists. reflexivity.
Qed.

(** X5.  With [endianness='little'], for every [val > 0], [long_to_bytes]
    returns the little-endian bytes of [val] on the smallest whole number of
    bytes: the reverse of the big-endian result, reading back, least
    significant byte first, as [val]. *)
Theorem X5_long_to_bytes_little_endian :
  forall val : Z,
    0 < val ->
    long_to_bytes val (lit "little") = Ok (le_bytes (byte_len val) val)
    /\ le_value (le_bytes (byte_len val) val) = val
    /\ (forall b, long_to_bytes val (lit "big") = Ok b ->
          long_to_bytes val (lit "little") = Ok (rev b)).
Proof.
  intros val Hpos.
  pose proof (byte_len_bound val ltac:(lia)) as Hub.
  assert (Hl : long_to_bytes val (lit "little")
               = Ok (le_bytes (byte_len val) val)).
  { rewrite long_to_bytes_positive by exact Hpos.
    destruct (list_eq_dec ascii_dec (lit "little") (lit "little")) as [_|N];
      [|contradiction N; reflexivity].
    unfold minimal_be_bytes. now rewrite be_bytes_rev_le_bytes, rev_involutive. }
  split; [exact Hl|]. split; [apply le_value_decodes; lia|].
  intros b Hb. rewrite long_to_bytes_positive in Hb by exact Hpos.
  destruct (list_eq_dec ascii_dec (lit "big") (lit "little")) as [E|_];
    [discriminate E|].
  injection Hb as <-. rewrite Hl. unfold minimal_be_bytes.
  now rewrite be_bytes_rev_le_bytes, rev_involutive.
Qed.

Lemma X5_long_to_bytes_little_endian_witness :
  0 < 0x12345
  /\ long_to_bytes 0x12345 (lit "little") = Ok [0x45; 0x23; 0x01].
Proof.
  split; [lia|].
  exact (proj1 (X5_long_to_bytes_little_endian 0x12345 ltac:(lia))).
Defined.

(** X6.  For every [val > 0] the big-endian result of [long_to_bytes] has
    no leading zero byte: its first byte is between 1 and 255, every byte is
    in [0, 256), and there are as many bytes as the bits of [val] need,
    [ceil(bit_length / 8)]. *)
Theorem X6_long_to_bytes_has_no_leading_zero :
  forall val : Z,
    0 < val ->
    exists b0 rest,
      long_to_bytes val (lit "big") = Ok (b0 :: rest)
      /\ 1 <= b0 < 256
      /\ Forall (fun y => 0 <= y < 256) rest
      /\ 8 * Z.of_nat (length rest) < bit_length val
           <= 8 * Z.of_nat (length (b0 :: rest)).
Proof.
  intros val Hpos.
  destruct (minimal_be_bytes_head val Hpos) as (b0 & rest & Hm & Hb0 & Hlen).
  exists b0, rest.
  split.
  { rewrite long_to_bytes_positive by exact Hpos.
    destruct (list_eq_dec ascii_dec (lit "big") (lit "little")) as [E|_];
      [discriminate E|]. now rewrite Hm. }
  split; [exact Hb0|].
  split.
  { pose proof (be_bytes_forall_range (byte_len val) val) as HF.
    fold (minimal_be_bytes val) in HF. rewrite Hm in HF.
    now inversion HF. }
  cbn [length]. rewrite Hlen. unfold bit_length, byte_len.
  destruct (Z.eqb_spec val 0) as [|_]; [lia|].
  rewrite Z.abs_eq by lia. cbn [Nat.pred].
  pose proof (Z.log2_nonneg val).
  assert (0 <= Z.log2 val / 8) by (apply Z.div_pos; lia).
  rewrite Nat2Z.inj_succ, Z2Nat.id by lia.
  Z.div_mod_to_equations. lia.
Qed.

Lemma X6_long_to_bytes_has_no_leading_zero_witness :
  0 < 256
  /\ exists b0 rest,
       long_to_bytes 256 (lit "big") = Ok (b0 :: rest) /\ 1 <= b0 < 256.
Proof.
  split; [lia|].
  destruct (X6_long_to_bytes_has_no_leading_zero 256 ltac:(lia))
    as (b0 & rest & H & Hb & _).
  exists b0, rest. split; assumption.
Defined.

(** X7.  [long_to_bytes] raises for every negative [val], whatever the
    endianness: the formatted string starts with the minus sign, which
    [unhexlify] rejects. *)
Theorem X7_long_to_bytes_rejects_negative :
  forall (val : Z) (endianness : str),
    val < 0 -> exists e, long_to_bytes val endianness = Raise e.
Proof.
  intros val endianness Hneg. unfold long_to_bytes.
  destruct (format_0x_negative
              ((bit_length val
                + (8 - (if bit_length val mod 8 =? 0 then 8
                        else bit_length val mod 8))) / 4) val Hneg)
    as [rest ->].
  destruct (unhexlify_minus rest) as [e ->]. exists e. reflexivity.
Qed.

Lemma X7_long_to_bytes_rejects_negative_witness :
  -1 < 0 /\ exists e, long_to_bytes (-1) (lit "big") = Raise e.
Proof.
  split; [lia|].
  exact (X7_long_to_bytes_rejects_negative (-1) (lit "big") ltac:(lia)).
Defined.

(** X8.  [d2h] is [long_to_bytes] of the bit pattern: for every float whose
    pattern is not zero the two return the same bytes; on 0.0 they part,
    [d2h] returns the byte 0 and [long_to_bytes] raises. *)
Theorem X8_d2h_is_long_to_bytes_of_the_pattern :
  forall (native : Native) (x : float64),
    (raw_bits x <> 0 -> d2h x = long_to_bytes (raw_bits x) (lit "big"))
    /\ (raw_bits x = 0 ->
        d2h x = Ok [0]
        /\ long_to_bytes (raw_bits x) (lit "big") = Raise Odd_length_string).
Proof.
  intros native x. pose proof (raw_bits_bounds x) as Hb.
  rewrite d2h_minimal. split.
  - intros Hne. rewrite long_to_bytes_positive by lia.
    destruct (list_eq_dec ascii_dec (lit "big") (lit "little")) as [E|_];
      [discriminate E|reflexivity].
  - intros ->. split; reflexivity.
Qed.

Lemma X8_d2h_is_long_to_bytes_of_the_pattern_witness :
  raw_bits f_one <> 0
  /\ @d2h number_stub f_one = long_to_bytes 0x3FF0000000000000 (lit "big").
Proof.
  assert (H : raw_bits f_one <> 0) by (vm_compute; discriminate).
  split; [exact H|].
  exact (proj1 (@X8_d2h_is_long_to_bytes_of_the_pattern number_stub f_one) H).
Defined.

(** ** The hash wrappers, continued *)

Lemma pack_be_I_bad (seed : Z) :
  ~ 0 <= seed < 2 ^ 32 -> pack_be_I seed = Raise struct_error.
Proof.
  intros H. unfold pack_be_I.
  destruct (Z.leb_spec 0 seed), (Z.ltb_spec seed (2 ^ 32));
    try reflexivity; lia.
Qed.

Lemma pack_be_Q_bad (seed : Z) :
  ~ 0 <= seed < 2 ^ 64 -> pack_be_Q seed = Raise struct_error.
Proof.
  intros H. unfold pack_be_Q.
  destruct (Z.leb_spec 0 seed), (Z.ltb_spec seed (2 ^ 64));
    try reflexivity; lia.
Qed.

(** X9.  A seed that does not fit the width of the wrapper makes it raise
    [struct.error] before the native function is called: for
    [hash64salt32] and [hash32] every seed outside [0, 2^32), for
    [hash64salt64] every seed outside [0, 2^64). *)
Theorem X9_wrappers_reject_wide_seeds :
  forall (native : Native) (buf : bytes) (seed : Z) (log : list call),
    (~ 0 <= seed < 2 ^ 32 ->
       hash64salt32 buf seed log = (Raise struct_error, log)
       /\ hash32 buf seed log = (Raise struct_error, log))
    /\ (~ 0 <= seed < 2 ^ 64 ->
       hash64salt64 buf seed log = (Raise struct_error, log)).
Proof.
  intros native buf seed log. split; intros H.
  - split; [|apply hash32_bad_seed; exact H].
    unfold hash64salt32, bind, lift. now rewrite pack_be_I_bad.
  - unfold hash64salt64, bind, lift. now rewrite pack_be_Q_bad.
Qed.

Lemma X9_wrappers_reject_wide_seeds_witness :
  (~ 0 <= -1 < 2 ^ 32
   /\ @hash32 number_stub [1] (-1) [] = (Raise struct_error, []))
  /\ (~ 0 <= 2 ^ 64 < 2 ^ 64
      /\ @hash64salt64 number_stub [1] (2 ^ 64) [] = (Raise struct_error, [])).
Proof.
  assert (H1 : ~ 0 <= -1 < 2 ^ 32) by lia.
  assert (H2 : ~ 0 <= 2 ^ 64 < 2 ^ 64) by lia.
  destruct (@X9_wrappers_reject_wide_seeds number_stub [1] (-1) []) as [A _].
  destruct (@X9_wrappers_reject_wide_seeds number_stub [1] (2 ^ 64) [])
    as [_ B].
  split; (split; [assumption|]).
  - exact (proj2 (A H1)).
  - exact (B H2).
Defined.

(** X10.  [hash32] is [hash64salt32] followed by the fold: for every
    buffer, seed and call history, running [hash32] gives the same outcome
    and makes the same call of the native function as running
    [hash64salt32] and XOR-folding its 64-bit result to 32 bits. *)
Theorem X10_hash32_is_folded_hash64salt32 :
  forall (native : Native) (buf : bytes) (seed : Z) (log : list call),
    hash32 buf seed log
    = (h <- hash64salt32 buf seed ;; ret (fold_to_uint32 h)) log.
Proof.
  intros native buf seed log. unfold bind at 1.
  destruct (Z_le_dec 0 seed) as [H0|H0];
    [destruct (Z_lt_dec seed (2 ^ 32)) as [H1|H1]|].
  - rewrite hash32_run, hash64salt32_run by lia. reflexivity.
  - rewrite hash32_bad_seed by lia.
    unfold hash64salt32, bind, lift. now rewrite pack_be_I_bad by lia.
  - rewrite hash32_bad_seed by lia.
    unfold hash64salt32, bind, lift. now rewrite pack_be_I_bad by lia.
Qed.

(** X11.  [calcHash] makes exactly one call of the native function, on the
    buffer as it is, and returns an integer in [0, 2^64) whatever integer
    the native function answers; the length handed over is the number of
    bytes whenever the buffer is shorter than 2^32 bytes. *)
Theorem X11_calcHash_one_call_unsigned_result :
  forall (native : Native) (buf : bytes) (log : list call),
    exists (r len : Z),
      calcHash buf log = (Ok r, log ++ [(buf, len)])
      /\ 0 <= r < 2 ^ 64
      /\ r = compute_hash buf len mod 2 ^ 64
      /\ (Z.of_nat (length buf) < 2 ^ 32 -> len = Z.of_nat (length buf)).
Proof.
  intros native buf log.
  exists (opaque_hash buf), (c_uint32 (Z.of_nat (length buf))).
  split; [apply calcHash_run|].
  split; [apply opaque_hash_range|].
  split; [reflexivity|].
  intros H. unfold c_uint32. apply Z.mod_small. lia.
Qed.

Lemma X11_calcHash_one_call_unsigned_result_witness :
  Z.of_nat (length [1; 2; 3]) < 2 ^ 32
  /\ @calcHash (constant_stub (-1)) [1; 2; 3] []
     = (Ok (2 ^ 64 - 1), [([1; 2; 3], 3)]).
Proof.
  assert (Hlen : Z.of_nat (length [1; 2; 3]) < 2 ^ 32) by (vm_compute; reflexivity).
  split; [exact Hlen|].
  destruct (@X11_calcHash_one_call_unsigned_result (constant_stub (-1))
              [1; 2; 3] []) as (r & len & Hrun & _ & Hr & Hl).
  rewrite Hrun, Hr, (Hl Hlen). reflexivity.
Defined.

(** X12.  The three hash functions never raise, and their results fit the
    signed fields they are meant for: [generate_location_hash] and
    [generate_location_hash_by_seed] return an integer in
    [-2^31, 2^31), [generate_request_hash] one in [-2^63, 2^63); the first
    calls the native function once, the other two twice. *)
Theorem X12_hashes_return_signed_integers :
  forall (native : Native) (authticket request : bytes) (lat lng : float64)
         (acc : option float64) (log : list call),
    (exists r log',
        generate_location_hash lat lng acc log = (Ok r, log')
        /\ - 2 ^ 31 <= r < 2 ^ 31 /\ length log' = S (length log))
    /\ (exists r log',
        generate_location_hash_by_seed authticket lat lng acc log = (Ok r, log')
        /\ - 2 ^ 31 <= r < 2 ^ 31 /\ length log' = S (S (length log)))
    /\ (exists r log',
        generate_request_hash authticket request log = (Ok r, log')
        /\ - 2 ^ 63 <= r < 2 ^ 63 /\ length log' = S (S (length log))).
Proof.
  intros native authticket request lat lng acc log.
  assert (R32 : forall v, 0 <= v < 2 ^ 32 ->
                  - 2 ^ 31 <= reinterpret_as_int32 v < 2 ^ 31).
  { intros v Hv. unfold reinterpret_as_int32.
    destruct (Z.ltb_spec v (2 ^ 31)); lia. }
  assert (R64 : forall v, 0 <= v < 2 ^ 64 ->
                  - 2 ^ 63 <= reinterpret_as_int64 v < 2 ^ 63).
  { intros v Hv. unfold reinterpret_as_int64.
    destruct (Z.ltb_spec v (2 ^ 63)); lia. }
  split; [|split].
  - rewrite generate_location_hash_run. eexists _, _.
    split; [reflexivity|]. split.
    + apply R32, fold_to_uint32_range.
    + rewrite length_app. cbn [length]. lia.
  - rewrite generate_location_hash_by_seed_run. eexists _, _.
    split; [reflexivity|]. split.
    + apply R32, fold_to_uint32_range.
    + rewrite length_app. cbn [length]. lia.
  - rewrite generate_request_hash_run. eexists _, _.
    split; [reflexivity|]. split.
    + apply R64, opaque_hash_range.
    + rewrite length_app. cbn [length]. lia.
Qed.

(** ** [Rand48] *)

Lemma land_mask48 (v : Z) : Z.land v (2 ^ 48 - 1) = v mod 2 ^ 48.
Proof. change (2 ^ 48 - 1) with (Z.ones 48). apply Z.land_ones. lia. Qed.

Lemma Rand48_next_value (self : Z) :
  Rand48.next self
  = ((25214903917 * self + 11) mod 2 ^ 48, (25214903917 * self + 11) mod 2 ^ 48).
Proof. unfold Rand48.next. now rewrite land_mask48. Qed.

Lemma Rand48_next_range (self : Z) : 0 <= fst (Rand48.next self) < 2 ^ 48.
Proof. rewrite Rand48_next_value. cbn [fst]. apply Z.mod_pos_bound. lia. Qed.

Lemma Rand48_next_congruent (self k : Z) :
  Rand48.next (self + k * 2 ^ 48) = Rand48.next self.
Proof.
  rewrite !Rand48_next_value.
  replace (25214903917 * (self + k * 2 ^ 48) + 11)
    with (25214903917 * self + 11 + (25214903917 * k) * 2 ^ 48) by ring.
  now rewrite Z.mod_add by lia.
Qed.

Lemma bit31_test (n : Z) :
  0 <= n < 2 ^ 32 -> (Z.land n (Z.shiftl 1 31) =? 0) = (n <? 2 ^ 31).
Proof.
  intros Hn. change (Z.shiftl 1 31) with (2 ^ 31).
  destruct (Z.ltb_spec n (2 ^ 31)) as [Hlt|Hge].
  - apply Z.eqb_eq. apply Z.bits_inj'. intros i Hi.
    rewrite Z.land_spec, Z.bits_0, Z.pow2_bits_eqb by lia.
    destruct (Z.eqb_spec 31 i) as [<-|_]; [|apply andb_false_r].
    rewrite andb_true_r.
    destruct (Z.eq_dec n 0) as [->|Hne]; [apply Z.bits_0|].
    apply Z.bits_above_log2; [lia|]. apply Z.log2_lt_pow2; lia.
  - apply Z.eqb_neq. intros E.
    assert (Hb : Z.testbit (Z.land n (2 ^ 31)) 31 = true).
    { rewrite Z.land_spec, Z.pow2_bits_eqb, Z.eqb_refl, andb_true_r by lia.
      apply Z.testbit_true; [lia|].
      replace n with (n - 2 ^ 31 + 1 * 2 ^ 31) by lia.
      rewrite Z.div_add, Z.div_small by lia. reflexivity. }
    rewrite E, Z.bits_0 in Hb. discriminate Hb.
Qed.

(** X13.  [Rand48.next] is the 48-bit linear congruential step: whatever
    integer the state holds, negative ones included, the value returned is
    [(25214903917 * n + 11) mod 2^48], in [0, 2^48), it is also the new
    state, and it depends on the old state modulo 2^48 only. *)
Theorem X13_Rand48_next_is_lcg_step :
  forall self k : Z,
    fst (Rand48.next self) = (25214903917 * self + 11) mod 2 ^ 48
    /\ 0 <= fst (Rand48.next self) < 2 ^ 48
    /\ snd (Rand48.next self) = fst (Rand48.next self)
    /\ Rand48.next (self + k * 2 ^ 48) = Rand48.next self.
Proof.
  intros self k.
  split; [now rewrite Rand48_next_value|].
  split; [apply Rand48_next_range|].
  split; [reflexivity|apply Rand48_next_congruent].
Qed.

(** X14.  [Rand48.lrand] returns an integer in [0, 2^31) and
    [Rand48.mrand] one in [-2^31, 2^31), from every state; both leave the
    state that [next] leaves. *)
Theorem X14_Rand48_lrand_mrand_ranges :
  forall self : Z,
    0 <= fst (Rand48.lrand self) < 2 ^ 31
    /\ - 2 ^ 31 <= fst (Rand48.mrand self) < 2 ^ 31
    /\ snd (Rand48.lrand self) = snd (Rand48.next self)
    /\ snd (Rand48.mrand self) = snd (Rand48.next self).
Proof.
  intros self. pose proof (Rand48_next_range self) as Hr.
  unfold Rand48.lrand, Rand48.mrand.
  destruct (Rand48.next self) as [v s'] eqn:E. cbn [fst snd] in *.
  rewrite !Z.shiftr_div_pow2 by lia.
  assert (H17 : 0 <= v / 2 ^ 17 < 2 ^ 31) by (Z.div_mod_to_equations; lia).
  assert (H16 : 0 <= v / 2 ^ 16 < 2 ^ 32) by (Z.div_mod_to_equations; lia).
  rewrite bit31_test by exact H16.
  change (Z.shiftl 1 32) with (2 ^ 32).
  repeat split; try lia; destruct (Z.ltb_spec (v / 2 ^ 16) (2 ^ 31)); lia.
Qed.

(** X15.  From the same state, [Rand48.mrand] is the two's-complement
    signed reading of the top 32 bits of the 48-bit value that [next]
    produces, and [Rand48.lrand] is the top 31 bits: half of the unsigned
    reading of [mrand]. *)
Theorem X15_Rand48_mrand_is_signed_top_bits :
  forall self : Z,
    fst (Rand48.mrand self) = c_int32 (fst (Rand48.next self) / 2 ^ 16)
    /\ fst (Rand48.lrand self) = fst (Rand48.next self) / 2 ^ 17
    /\ fst (Rand48.lrand self) = (fst (Rand48.mrand self) mod 2 ^ 32) / 2.
Proof.
  intros self. pose proof (Rand48_next_range self) as Hr.
  unfold Rand48.lrand, Rand48.mrand.
  destruct (Rand48.next self) as [v s'] eqn:E. cbn [fst snd] in *.
  rewrite !Z.shiftr_div_pow2 by lia.
  assert (H16 : 0 <= v / 2 ^ 16 < 2 ^ 32) by (Z.div_mod_to_equations; lia).
  rewrite bit31_test by exact H16.
  change (Z.shiftl 1 32) with (2 ^ 32).
  assert (Hm : (if v / 2 ^ 16 <? 2 ^ 31 then v / 2 ^ 16
                else v / 2 ^ 16 - 2 ^ 32) = c_int32 (v / 2 ^ 16)).
  { rewrite c_int32_reinterpret by exact H16. reflexivity. }
  rewrite Hm.
  split; [reflexivity|]. split; [reflexivity|].
  pose proof (c_uint_c_int32 (v / 2 ^ 16) H16) as Hu. unfold c_uint in Hu.
  rewrite Hu. change (2 ^ 17) with (2 ^ 16 * 2).
  rewrite Z.div_div by lia. reflexivity.
Qed.

Lemma Rand48_draws_same_first_step (k : nat) (s1 s2 : Z) :
  Rand48.next s1 = Rand48.next s2 ->
  Rand48.draws k s1 = Rand48.draws k s2.
Proof.
  intros H. destruct k as [|k]; [reflexivity|].
  cbn [Rand48.draws]. now rewrite H.
Qed.

(** X16.  After [Rand48.srand(seed)] the low 16 bits of the state are
    0x330E, and the numbers drawn afterwards depend on the seed modulo 2^32
    only: two seeds that differ by a multiple of 2^32 give the same values
    for any number of calls of [next], whatever the states were before. *)
Theorem X16_Rand48_srand_uses_32_bits_of_seed :
  forall (seed k self self' : Z) (j : nat),
    Rand48.srand seed self mod 2 ^ 16 = 0x330E
    /\ Rand48.draws j (Rand48.srand (seed + k * 2 ^ 32) self)
       = Rand48.draws j (Rand48.srand seed self').
Proof.
  intros seed k self self' j. unfold Rand48.srand.
  rewrite !Z.shiftl_mul_pow2 by lia. split.
  - rewrite Z.add_comm, Z.mod_add by lia. reflexivity.
  - apply Rand48_draws_same_first_step.
    replace ((seed + k * 2 ^ 32) * 2 ^ 16 + 13070)
      with (seed * 2 ^ 16 + 13070 + k * 2 ^ 48) by ring.
    apply Rand48_next_congruent.
Qed.

(** ** [get_format_time_diff] *)

(** X17.  With [ms=False], [get_format_time_diff(low, high)] splits the
    difference [high - low] into hours, minutes and seconds exactly:
    [high - low = 3600*h + 60*m + s] with [0 <= m < 60] and [0 <= s < 60],
    also when the difference is negative (the hours are then negative). *)
Theorem X17_time_diff_seconds_decomposition :
  forall low high h m s : Z,
    get_format_time_diff low high false = (h, m, s) ->
    high - low = 3600 * h + 60 * m + s
    /\ 0 <= m < 60 /\ 0 <= s < 60
    /\ (0 <= h <-> low <= high).
Proof.
  intros low high h m s H.
  unfold get_format_time_diff, divmod in H. injection H as <- <- <-.
  Z.div_mod_to_equations. lia.
Qed.

Lemma X17_time_diff_seconds_decomposition_witness :
  get_format_time_diff 100 3825 false = (1, 2, 5)
  /\ 3825 - 100 = 3600 * 1 + 60 * 2 + 5.
Proof.
  split; [reflexivity|].
  exact (proj1 (X17_time_diff_seconds_decomposition 100 3825 1 2 5 eq_refl)).
Defined.

(** X18.  With [ms=True] on integer milliseconds (where [/] is the floor
    division), [get_format_time_diff] splits the whole seconds of the
    difference: [(high - low) div 1000 = 3600*h + 60*m + s] with
    [0 <= m < 60] and [0 <= s < 60]; the milliseconds below a second are
    dropped. *)
Theorem X18_time_diff_milliseconds_decomposition :
  forall low high h m s : Z,
    get_format_time_diff low high true = (h, m, s) ->
    (high - low) / 1000 = 3600 * h + 60 * m + s
    /\ 0 <= m < 60 /\ 0 <= s < 60
    /\ 0 <= (high - low) - 1000 * (3600 * h + 60 * m + s) < 1000.
Proof.
  intros low high h m s H.
  unfold get_format_time_diff, divmod in H. injection H as <- <- <-.
  Z.div_mod_to_equations. lia.
Qed.

Lemma X18_time_diff_milliseconds_decomposition_witness :
  get_format_time_diff 0 3725999 true = (1, 2, 5)
  /\ (3725999 - 0) / 1000 = 3600 * 1 + 60 * 2 + 5.
Proof.
  split; [reflexivity|].
  exact (proj1 (X18_time_diff_milliseconds_decomposition 0 3725999 1 2 5 eq_refl)).
Defined.

(** ** [parse_api_endpoint] *)

Lemma startswith_app (p r : str) : startswith (p ++ r) p = true.
Proof.
  induction p as [|c p IH]; [destruct r; reflexivity|].
  cbn [app startswith]. now rewrite Ascii.eqb_refl, IH.
Qed.

(** X19.  The result of [parse_api_endpoint] always starts with [https];
    an address that already does is returned unchanged, so applying the
    function twice is the same as applying it once. *)
Theorem X19_parse_api_endpoint_idempotent :
  forall api_url : str,
    startswith (parse_api_endpoint api_url) (lit "https") = true
    /\ parse_api_endpoint (parse_api_endpoint api_url)
       = parse_api_endpoint api_url.
Proof.
  intros api_url.
  assert (H : startswith (parse_api_endpoint api_url) (lit "https") = true).
  { unfold parse_api_endpoint.
    destruct (startswith api_url (lit "https")) eqn:E; cbn [negb]; [exact E|].
    apply (startswith_app (lit "https") (lit "://" ++ api_url ++ lit "/rpc")). }
  split; [exact H|].
  unfold parse_api_endpoint at 1. now rewrite H.
Qed.

(** ** [to_camel_case] *)

Lemma split_on_nonempty (sep : ascii) (s : str) : split_on sep s <> [].
Proof.
  destruct s as [|c r]; cbn [split_on]; [discriminate|].
  destruct (Ascii.eqb c sep); [discriminate|].
  destruct (split_on sep r); discriminate.
Qed.

Lemma split_on_app (sep : ascii) (a b : str) :
  split_on sep (a ++ sep :: b) = split_on sep a ++ split_on sep b.
Proof.
  induction a as [|c a IH].
  - cbn [app split_on]. now rewrite Ascii.eqb_refl.
  - cbn [app split_on]. rewrite IH.
    destruct (Ascii.eqb c sep); [reflexivity|].
    pose proof (split_on_nonempty sep a) as Hne.
    destruct (split_on sep a) as [|w ws]; [contradiction|reflexivity].
Qed.

(** No piece of a split holds the separator. *)
Lemma split_on_pieces (sep : ascii) (s : str) :
  Forall (fun w => ~ In sep w) (split_on sep s).
Proof.
  induction s as [|c r IH]; cbn [split_on].
  - constructor; [intros []|constructor].
  - destruct (Ascii.eqb_spec c sep) as [->|Hne].
    + constructor; [intros []|exact IH].
    + pose proof (split_on_nonempty sep r) as Hn.
      destruct (split_on sep r) as [|w ws]; [contradiction|].
      inversion IH as [|? ? Hw Hws]; subst.
      constructor; [|exact Hws].
      intros [E|E]; [now apply Hne|now apply Hw].
Qed.

(** The pieces and the separators between them make up the string. *)
Lemma split_on_lengths (sep : ascii) (s : str) :
  (length (concat (split_on sep s)) + count_occ ascii_dec s sep = length s)%nat
  /\ length (split_on sep s) = S (count_occ ascii_dec s sep).
Proof.
  induction s as [|c r [IH1 IH2]]; [split; reflexivity|].
  cbn [split_on count_occ length].
  destruct (Ascii.eqb_spec c sep) as [->|Hne].
  - destruct (ascii_dec sep sep) as [_|N]; [|contradiction].
    cbn [concat app length]. split; lia.
  - destruct (ascii_dec c sep) as [E|_]; [contradiction|].
    pose proof (split_on_nonempty sep r) as Hn.
    destruct (split_on sep r) as [|w ws]; [contradiction|].
    cbn [concat app length] in *. split; lia.
Qed.

Lemma upper_char_not_underscore (c : ascii) :
  c <> "_"%char -> upper_char c <> "_"%char.
Proof.
  destruct c as [[] [] [] [] [] [] [] []]; vm_compute; congruence.
Qed.

Lemma lower_char_not_underscore (c : ascii) :
  c <> "_"%char -> lower_char c <> "_"%char.
Proof.
  destruct c as [[] [] [] [] [] [] [] []]; vm_compute; congruence.
Qed.

Lemma capitalize_length (w : str) : length (capitalize w) = length w.
Proof. destruct w; cbn [capitalize length]; [|rewrite length_map]; reflexivity. Qed.

Lemma capitalize_no_underscore (w : str) :
  ~ In "_"%char w -> ~ In "_"%char (capitalize w).
Proof.
  destruct w as [|c r]; [auto|]. cbn [capitalize]. intros H [E|E].
  - apply (upper_char_not_underscore c); [|exact E].
    intros ->. apply H. now left.
  - apply in_map_iff in E. destruct E as (d & Ed & Hd).
    apply (lower_char_not_underscore d); [|exact Ed].
    intros ->. apply H. now right.
Qed.

(** X20.  [to_camel_case] works word by word: the result for
    [a + '_' + b] is the result for [a] followed by the result for [b],
    for all strings [a] and [b]. *)
Theorem X20_to_camel_case_splits_at_underscore :
  forall a b : str,
    to_camel_case (a ++ "_"%char :: b) = to_camel_case a ++ to_camel_case b.
Proof.
  intros a b. unfold to_camel_case.
  now rewrite split_on_app, map_app, concat_app.
Qed.

(** X21.  When no word of the name is empty (the name neither starts nor
    ends with an underscore and has no two underscores in a row), the
    result of [to_camel_case] holds no underscore, and it is shorter than
    the name by the number of underscores of the name. *)
Theorem X21_to_camel_case_drops_the_underscores :
  forall value : str,
    Forall (fun word => word <> []) (split_on "_"%char value) ->
    ~ In "_"%char (to_camel_case value)
    /\ (length (to_camel_case value) + count_occ ascii_dec value "_"%char
        = length value)%nat.
Proof.
  intros value Hne.
  destruct (split_on_lengths "_"%char value) as [Hlen _].
  pose proof (split_on_pieces "_"%char value) as Hp.
  unfold to_camel_case.
  induction (split_on "_"%char value) as [|w ws IH] in Hne, Hp, Hlen |- *.
  - split; [intros []|exact Hlen].
  - inversion Hne as [|? ? Hw Hws]; subst.
    inversion Hp as [|? ? Pw Pws]; subst.
    cbn [map concat] in *.
    assert (Hcw : camel_word w = capitalize w)
      by (destruct w; [contradiction|reflexivity]).
    rewrite Hcw.
    assert (Hrest :
      ~ In "_"%char (concat (map camel_word ws))
      /\ length (concat (map camel_word ws)) = length (concat ws)).
    { clear - Hws Pws. induction ws as [|u us IHu]; [split; [intros []|reflexivity]|].
      inversion Hws as [|? ? Hu Hus]; subst.
      inversion Pws as [|? ? Pu Pus]; subst.
      destruct (IHu Hus Pus) as [I1 I2]. cbn [map concat].
      assert (Hcu : camel_word u = capitalize u)
        by (destruct u; [contradiction|reflexivity]).
      rewrite Hcu, !length_app, capitalize_length, I2. split; [|reflexivity].
      intros E. apply in_app_or in E. destruct E as [E|E];
        [now apply (capitalize_no_underscore u Pu)|now apply I1]. }
    destruct Hrest as [R1 R2]. split.
    + intros E. apply in_app_or in E. destruct E as [E|E];
        [now apply (capitalize_no_underscore w Pw)|now apply R1].
    + rewrite length_app in *. rewrite capitalize_length, R2. exact Hlen.
Qed.

Lemma X21_to_camel_case_drops_the_underscores_witness :
  Forall (fun word => word <> []) (split_on "_"%char (lit "get_map_objects"))
  /\ ~ In "_"%char (to_camel_case (lit "get_map_objects")).
Proof.
  assert (H : Forall (fun word => word <> [])
                (split_on "_"%char (lit "get_map_objects")))
    by (repeat constructor; discriminate).
  split; [exact H|].
  exact (proj1 (X21_to_camel_case_drops_the_underscores
                  (lit "get_map_objects") H)).
Defined.

(** ** [get_cell_ids] *)

Lemma insert_sorted_perm (x : Z) (l : list Z) :
  Permutation (insert_sorted x l) (x :: l).
Proof.
  induction l as [|y r IH]; cbn [insert_sorted]; [reflexivity|].
  destruct (x <=? y); [reflexivity|].
  rewrite IH. apply perm_swap.
Qed.

Lemma sorted_perm (l : list Z) : Permutation (sorted l) l.
Proof.
  induction l as [|x r IH]; cbn [sorted]; [reflexivity|].
  rewrite insert_sorted_perm. now constructor.
Qed.

Lemma insert_sorted_sorted (x : Z) (l : list Z) :
  StronglySorted Z.le l -> StronglySorted Z.le (insert_sorted x l).
Proof.
  induction l as [|y r IH]; intros Hs; cbn [insert_sorted].
  - repeat constructor.
  - inversion Hs as [|? ? Hr Hy]; subst.
    destruct (Z.leb_spec x y) as [Hle|Hgt].
    + constructor; [exact Hs|]. constructor; [exact Hle|].
      apply Forall_impl with (P := Z.le y); [intros; lia|exact Hy].
    + constructor; [apply IH; exact Hr|].
      apply Forall_forall. intros z Hz.
      apply (Permutation_in _ (insert_sorted_perm x r)) in Hz.
      destruct Hz as [<-|Hz]; [lia|].
      rewrite Forall_forall in Hy. now apply Hy.
Qed.

Lemma sorted_sorted (l : list Z) : StronglySorted Z.le (sorted l).
Proof.
  induction l as [|x r IH]; cbn [sorted]; [constructor|].
  now apply insert_sorted_sorted.
Qed.

(** X22.  [get_cell_ids] returns at most 21 cell ids in ascending order:
    they are the ids of the first 21 cells of the covering, rearranged, and
    the covering is asked for a radius of at most 500 (a larger radius, like
    an omitted one, counts as 500). *)
Theorem X22_get_cell_ids_sorted_and_capped :
  forall (s2 : S2) (lat long : float64) (radius : option Z),
    let r := match radius with Some r => r | None => 500 end in
    let ids := get_cell_ids lat long radius in
    (length ids <= 21)%nat
    /\ StronglySorted Z.le ids
    /\ Permutation ids
         (map cell_id (firstn 21 (covering lat long (Z.min r 500)))).
Proof.
  intros s2 lat long radius r ids.
  assert (E : ids = sorted (map cell_id
                              (firstn 21 (covering lat long (Z.min r 500))))).
  { unfold ids, get_cell_ids. fold r.
    replace (if r >? 500 then 500 else r) with (Z.min r 500);
      [reflexivity|].
    destruct (Z.gtb_spec r 500); lia. }
  rewrite E. split; [|split].
  - rewrite (Permutation_length (sorted_perm _)), length_map.
    apply firstn_le_length.
  - apply sorted_sorted.
  - apply sorted_perm.
Qed.

(** ** [h2f] *)

Lemma hex_digit_not_space (wide : bool) (d : Z) :
  0 <= d < 16 -> is_space wide (hex_digit d) = false.
Proof.
  intros H. apply digit_cases in H. simpl in H.
  repeat (destruct H as [H|H]; [subst d; now destruct wide|]). contradiction.
Qed.

Lemma hex_digit_not_underscore (d : Z) :
  0 <= d < 16 -> Ascii.eqb (hex_digit d) "_"%char = false.
Proof.
  intros H. apply digit_cases in H. simpl in H.
  repeat (destruct H as [H|H]; [subst d; reflexivity|]). contradiction.
Qed.

Lemma hex_fixed_not_space (wide : bool) (n : nat) (v : Z) :
  Forall (fun c => is_space wide c = false) (hex_fixed n v).
Proof.
  induction n as [|n IH]; cbn [hex_fixed]; constructor; [|exact IH].
  apply hex_digit_not_space, Z.mod_pos_bound. lia.
Qed.

Lemma rstrip_no_space (wide : bool) (s : str) :
  Forall (fun c => is_space wide c = false) s -> rstrip wide s = s.
Proof.
  induction 1 as [|c r Hc Hr IH]; [reflexivity|].
  cbn [rstrip]. rewrite IH, Hc. now destruct r.
Qed.

Lemma int_digits_hex_fixed (separators : bool) (n : nat) (v acc : Z) :
  int_digits separators true acc (hex_fixed n v)
  = Some (acc * 16 ^ Z.of_nat n + v mod 16 ^ Z.of_nat n).
Proof.
  revert acc; induction n as [|n IH]; intros acc.
  - simpl. rewrite Z.mod_1_r. f_equal. lia.
  - cbn [hex_fixed int_digits].
    rewrite hex_digit_not_underscore, hex_value_hex_digit
      by (apply Z.mod_pos_bound; lia).
    rewrite IH. f_equal.
    rewrite Nat2Z.inj_succ, Z.pow_succ_r by lia.
    pose proof (pow16_pos n) as Hp.
    rewrite (Z.mul_comm 16 (16 ^ Z.of_nat n)).
    rewrite (Z.rem_mul_r v (16 ^ Z.of_nat n) 16) by lia.
    ring.
Qed.

Lemma hex_digits_cons (v : Z) :
  0 <= v ->
  exists d rest,
    hex_digits v = hex_digit d :: rest /\ 0 <= d < 16
    /\ Forall (fun c => is_space true c = false) (hex_digits v)
    /\ Forall (fun c => is_space false c = false) (hex_digits v)
    /\ forall separators,
         int_digits separators false 0 (hex_digits v) = Some v.
Proof.
  intros Hv. pose proof (hex_len_bound v Hv) as Hb.
  unfold hex_digits in *.
  assert (Hn : exists k, hex_len v = S k)
    by (unfold hex_len; destruct (v =? 0); eexists; reflexivity).
  destruct Hn as [k Hk]. rewrite Hk in *.
  exists ((v / 16 ^ Z.of_nat k) mod 16), (hex_fixed k v).
  split; [reflexivity|]. split; [apply Z.mod_pos_bound; lia|].
  split; [apply (hex_fixed_not_space true (S k))|].
  split; [apply (hex_fixed_not_space false (S k))|].
  intros separators.
  pose proof (int_digits_hex_fixed separators (S k) v 0) as H.
  rewrite Z.mod_small in H by lia. cbn [hex_fixed int_digits] in *.
  rewrite hex_digit_not_underscore, hex_value_hex_digit in *
    by (apply Z.mod_pos_bound; lia).
  exact H.
Qed.

(** [int(hex(v), 16)] is [v]. *)
Lemma int_base16_hex (separators wide : bool) (v : Z) :
  int_base16 separators wide (hex false v) = Some v.
Proof.
  destruct (hex_digits_cons (Z.abs v) (Z.abs_nonneg v))
    as (d & rest & Hd & Hdr & Fw & Fn & Hint).
  assert (F : Forall (fun c => is_space wide c = false) (hex_digits (Z.abs v)))
    by (destruct wide; assumption).
  assert (H0 : is_space wide "0"%char = false) by now destruct wide.
  assert (Hx : is_space wide "x"%char = false) by now destruct wide.
  assert (Hm : is_space wide "-"%char = false) by now destruct wide.
  unfold int_base16, hex. rewrite app_nil_r. unfold minus_sign.
  destruct (Z.ltb_spec v 0) as [Hneg|Hpos]; cbn [app lstrip].
  - rewrite Hm. rewrite rstrip_no_space by (repeat constructor; assumption).
    rewrite Hd in *. cbn [Ascii.eqb Bool.eqb orb].
    rewrite hex_digit_not_underscore, andb_false_r by exact Hdr.
    rewrite Hint. f_equal. lia.
  - rewrite H0. rewrite rstrip_no_space by (repeat constructor; assumption).
    rewrite Hd in *. cbn [Ascii.eqb Bool.eqb orb].
    rewrite hex_digit_not_underscore, andb_false_r by exact Hdr.
    rewrite Hint. f_equal. lia.
Qed.

Lemma unpack_pack_le_Q (v : Z) (H : in_u64 v = true) :
  exists b, pack_le_Q v = Ok b /\ unpack_le_d b = Ok (mkFloat64 v H).
Proof.
  pose proof (proj1 (in_u64_range v) H) as Hr.
  exists (le_bytes 8 v). split.
  - unfold pack_le_Q. unfold in_u64 in H. now rewrite H.
  - unfold unpack_le_d. rewrite length_le_bytes. cbn [Nat.eqb].
    f_equal. apply float64_eq. cbn [raw_bits].
    rewrite le_value_le_bytes. change (256 ^ Z.of_nat 8) with (2 ^ 64).
    rewrite Zmod_mod. apply Z.mod_small, Hr.
Qed.

(** X23.  [h2f] undoes [f2h]: for every float whose [hex] rendering
    carries no [L] suffix, [h2f(f2h(x))] returns [x] itself, bit for bit. *)
Theorem X23_h2f_undoes_f2h :
  forall (native : Native) (separators wide : bool) (x : float64),
    hex_long_suffix (raw_bits x) = false ->
    exists s : str, f2h x = Ok s /\ h2f separators wide s = inr x.
Proof.
  intros native separators wide x Hs.
  exists (hex false (raw_bits x)). split.
  - unfold f2h. fold (f2i x). rewrite f2i_raw_bits. cbn [rbind]. now rewrite Hs.
  - unfold h2f. rewrite int_base16_hex.
    destruct x as [v H]. cbn [raw_bits].
    destruct (unpack_pack_le_Q v H) as (b & -> & ->). reflexivity.
Qed.

Lemma X23_h2f_undoes_f2h_witness :
  @hex_long_suffix number_stub (raw_bits f_neg_one) = false
  /\ exists s, @f2h number_stub f_neg_one = Ok s /\ h2f true true s = inr f_neg_one.
Proof.
  split; [reflexivity|].
  exact (@X23_h2f_undoes_f2h number_stub true true f_neg_one eq_refl).
Defined.

Lemma int_digits_hex_fixed_L
    (separators prev_digit : bool) (n : nat) (v acc : Z) :
  int_digits separators prev_digit acc (hex_fixed n v ++ ["L"%char]) = None.
Proof.
  revert prev_digit acc; induction n as [|n IH]; intros prev_digit acc.
  - reflexivity.
  - cbn [hex_fixed app int_digits].
    rewrite hex_digit_not_underscore, hex_value_hex_digit
      by (apply Z.mod_pos_bound; lia).
    apply IH.
Qed.

(** [int(s, 16)] does not read the [L] that ends the [hex] of a long. *)
Lemma int_base16_hex_long (separators wide : bool) (v : Z) :
  int_base16 separators wide (hex true v) = None.
Proof.
  destruct (hex_digits_cons (Z.abs v) (Z.abs_nonneg v))
    as (d & rest & Hd & Hdr & Fw & Fn & _).
  assert (F : Forall (fun c => is_space wide c = false)
                (hex_digits (Z.abs v) ++ ["L"%char])).
  { apply Forall_app. split; [destruct wide; assumption|].
    constructor; [now destruct wide|constructor]. }
  assert (HL : int_digits separators false 0 (hex_digits (Z.abs v) ++ ["L"%char])
               = None) by apply int_digits_hex_fixed_L.
  assert (H0 : is_space wide "0"%char = false) by now destruct wide.
  assert (Hx : is_space wide "x"%char = false) by now destruct wide.
  assert (Hm : is_space wide "-"%char = false) by now destruct wide.
  unfold int_base16, hex, minus_sign.
  destruct (Z.ltb_spec v 0) as [Hneg|Hpos]; cbn [app lstrip].
  - rewrite Hm. rewrite rstrip_no_space by (repeat constructor; assumption).
    rewrite Hd in *. cbn [app Ascii.eqb Bool.eqb orb] in *.
    rewrite hex_digit_not_underscore, andb_false_r by exact Hdr.
    now rewrite HL.
  - rewrite H0. rewrite rstrip_no_space by (repeat constructor; assumption).
    rewrite Hd in *. cbn [app Ascii.eqb Bool.eqb orb] in *.
    rewrite hex_digit_not_underscore, andb_false_r by exact Hdr.
    now rewrite HL.
Qed.

(** X24.  [h2f] on the [hex] rendering of an integer [v].  When the
    rendering has no trailing [L] (Python 3, and the plain integers of
    Python 2), [h2f] returns the double whose bit pattern is [v] for
    [0 <= v < 2^64] and raises [struct.error] for every other [v], negative
    ones included.  When the rendering ends in [L] (the long integers of
    Python 2), [h2f] raises [ValueError] for every [v]: [int(s, 16)] does
    not read the suffix. *)
Theorem X24_h2f_of_hex :
  forall (separators wide : bool) (v : Z),
    (0 <= v < 2 ^ 64 ->
       exists x, h2f separators wide (hex false v) = inr x /\ raw_bits x = v)
    /\ (~ 0 <= v < 2 ^ 64 ->
       h2f separators wide (hex false v) = inl h2f_struct_error)
    /\ h2f separators wide (hex true v) = inl ValueError.
Proof.
  intros separators wide v. unfold h2f.
  rewrite int_base16_hex, int_base16_hex_long. split; [|split].
  - intros Hv. assert (H : in_u64 v = true) by (apply in_u64_range; exact Hv).
    destruct (unpack_pack_le_Q v H) as (b & -> & ->).
    eexists. split; reflexivity.
  - intros Hv. unfold pack_le_Q.
    destruct (Z.leb_spec 0 v), (Z.ltb_spec v (2 ^ 64)); try reflexivity; lia.
  - reflexivity.
Qed.

Lemma X24_h2f_of_hex_witness :
  (0 <= 0x4014000000000000 < 2 ^ 64
   /\ exists x, h2f false false (hex false 0x4014000000000000) = inr x
                /\ raw_bits x = raw_bits f_five)
  /\ (~ 0 <= -1 < 2 ^ 64
      /\ h2f false false (hex false (-1)) = inl h2f_struct_error)
  /\ h2f false false (hex true (2 ^ 63)) = inl ValueError.
Proof.
  assert (H1 : 0 <= 0x4014000000000000 < 2 ^ 64) by lia.
  assert (H2 : ~ 0 <= -1 < 2 ^ 64) by lia.
  split; [split; [assumption|]|split; [split; [assumption|]|]].
  - exact (proj1 (X24_h2f_of_hex false false 0x4014000000000000) H1).
  - exact (proj1 (proj2 (X24_h2f_of_hex false false (-1))) H2).
  - exact (proj2 (proj2 (X24_h2f_of_hex false false (2 ^ 63)))).
Defined.
